(** * Splitwise: a shared-expense ledger (src/splitwise.py)

    A shallow embedding of the split strategies, the settlement
    strategies, [Expense] and [UserGroup], followed by the properties of
    the balance computation and settlement engine.

    Modelling conventions.

    - Amounts.  The program computes with Python numbers (ints that
      become floats after [/] and after passing through
      [defaultdict(float)]).  They are modelled as exact rationals [Qc];
      the rounding of binary floating point is outside this model.  All
      concrete inputs used below are small integers, so every value that
      occurs there is represented exactly by a float as well.
    - Users.  A [User] object is identified with its [id] (name plus a
      fresh uuid, hence unique per object): dictionaries keyed by [User]
      objects and dictionaries keyed by [user.id] are both keyed by that
      string.  The [balance] dictionary of every user object lives in
      the store [balance] of the [World].
    - Inner dictionaries of the balance sheet are Python objects that
      [get_passbook] shares with its caller, so they live in a heap
      [rows] and the balance sheet maps a debtor to the location of its
      row.
    - Exceptions carry the state in which they were raised. *)

From Stdlib Require Import QArith Qcanon.
From stdpp Require Import gmap strings list fin_maps numbers.

Local Open Scope Qc_scope.

(** ** Python values *)

Abbreviation User := string (only parsing).
Abbreviation loc := positive (only parsing).

(** A Python int literal used as an amount. *)
Notation "# z" := (Qc_of_Z z) (at level 8, format "# z").

Inductive exn : Type :=
| ValueError (msg : string)
| ZeroDivisionError
| TypeError (msg : string)
| KeyError (key : string).

#[global] Instance exn_eq_dec : EqDecision exn.
Proof. solve_decision. Defined.

(** The error kinds of the specification, as the exceptions the source
    raises for them. *)
Definition UnknownSplitType (split_type : string) : exn :=
  ValueError ("Invalid split type: " +:+ split_type).
Definition MissingCustomShares (strategy : string) : exn :=
  ValueError ("Custom splits required for " +:+ strategy).
Definition SplitSumMismatch : exn :=
  ValueError "Custom split amounts do not sum to total amount".
Definition PercentageSumMismatch : exn :=
  ValueError "Percentage splits must sum to 100%".
Definition SettlementExceedsBalance : exn :=
  ValueError "Settlement amount exceeds the outstanding balance.".
Definition NoOutstandingBalance : exn :=
  ValueError "No outstanding balance between these users.".
Definition UnknownSettlementPolicy (algo : string) : exn :=
  ValueError ("settlement algo doesn't exists " +:+ algo).

(** [defaultdict(float)]: reading a missing key gives [0.0]. *)
Definition getitem (d : gmap string Qc) (k : string) : Qc :=
  default 0 (d !! k).

(** [d[k] += x] and [d[k] -= x] on a [defaultdict(float)]. *)
Definition iadd (d : gmap string Qc) (k : string) (x : Qc) : gmap string Qc :=
  <[k := getitem d k + x]> d.
Definition isub (d : gmap string Qc) (k : string) (x : Qc) : gmap string Qc :=
  <[k := getitem d k - x]> d.

(** [sum(d.values())]. *)
Definition sum_values (d : gmap string Qc) : Qc :=
  map_fold (λ _ v acc, acc + v) 0 d.

(** [not custom_splits]: [None] and the empty dictionary are falsy. *)
Definition falsy (custom_splits : option (gmap User Qc)) : bool :=
  match custom_splits with
  | None => true
  | Some d => bool_decide (d = ∅)
  end.

(** ** Split strategies *)

Module SplitType.
Definition EQUAL : string := "EQUAL".
Definition EXACT : string := "EXACT".
Definition PERCENTAGE : string := "PERCENTAGE".
End SplitType.

Module SettlementAlgo.
Definition HEAP_BASED : string := "heap_based".
Definition BRUTE_FORCE : string := "brute_force".
End SettlementAlgo.

(** The abstract base class: one method, [split]. *)
Record SplitStrategy : Type := {
  split : User → Qc → list User → option (gmap User Qc) → exn + gmap User Qc
}.

(** [{user: per_head for user in users}]. *)
Definition dict_of_users (users : list User) (per_head : Qc) : gmap User Qc :=
  foldl (λ d user, <[user := per_head]> d) ∅ users.

Definition EqualSplit : SplitStrategy := {|
  split payer amount users custom_splits :=
    match users with
    | [] => inl ZeroDivisionError
    | _ =>
        let per_head := amount / #(Z.of_nat (length users)) in
        inr (dict_of_users users per_head)
    end
|}.

Definition ExactSplit : SplitStrategy := {|
  split payer amount users custom_splits :=
    if falsy custom_splits then inl (MissingCustomShares "ExactSplit")
    else
      let d := default ∅ custom_splits in
      if bool_decide (sum_values d ≠ amount) then inl SplitSumMismatch
      else inr d
|}.

Definition PercentageSplit : SplitStrategy := {|
  split payer amount users custom_splits :=
    if falsy custom_splits then inl (MissingCustomShares "PercentageSplit")
    else
      let d := default ∅ custom_splits in
      if bool_decide (sum_values d ≠ #100) then inl PercentageSumMismatch
      else inr ((λ percent, (percent / #100) * amount) <$> d)
|}.

(** [SplitStrategy._registry] after the three [register_strategy] calls. *)
Definition split_registry : gmap string SplitStrategy :=
  <[SplitType.PERCENTAGE := PercentageSplit]>
    (<[SplitType.EXACT := ExactSplit]>
       (<[SplitType.EQUAL := EqualSplit]> ∅)).

Definition get_strategy (split_type : string) : exn + SplitStrategy :=
  match split_registry !! split_type with
  | None => inl (UnknownSplitType split_type)
  | Some strategy_cls => inr strategy_cls
  end.

(** ** Expenses *)

Record Expense : Type := {
  payer : User;
  amount : Qc;
  splits : gmap User Qc;
  description : string
}.

(** [Expense.__init__]. *)
Definition Expense_init (payer : User) (amount : Qc) (users : list User)
    (split_strategy : SplitStrategy) (custom_splits : option (gmap User Qc))
    (description : string) : exn + Expense :=
  match split split_strategy payer amount users custom_splits with
  | inl e => inl e
  | inr s =>
      inr {| payer := payer; amount := amount; splits := s;
             description := description |}
  end.

(** ** The state *)

Record UserGroup : Type := {
  name : string;
  users : list User;
  expenses : list Expense;
  settlement_algo : string;
  balance_sheet : gmap string loc
}.

Record World : Type := {
  balance : gmap User (gmap string Qc);
  rows : gmap loc (gmap string Qc);
  group : UserGroup
}.

(** [UserGroup.__init__]. *)
Definition UserGroup_init (name : string) (users : list User)
    (settlement_algo : string) : UserGroup :=
  {| name := name; users := users; expenses := [];
     settlement_algo := settlement_algo; balance_sheet := ∅ |}.

(** A fresh ledger over freshly created users: no user has a balance
    entry and no row exists. *)
Definition fresh_world (name : string) (users : list User)
    (settlement_algo : string) : World :=
  {| balance := ∅; rows := ∅;
     group := UserGroup_init name users settlement_algo |}.

(** [user.balance], the dictionary of a user object (empty until
    written). *)
Definition user_balance (w : World) (user : User) : gmap string Qc :=
  default ∅ (balance w !! user).

(** The dictionary object at a location. *)
Definition row_at (w : World) (l : loc) : gmap string Qc :=
  default ∅ (rows w !! l).

Definition set_user_balance (user : User) (d : gmap string Qc) (w : World)
    : World :=
  {| balance := <[user := d]> (balance w); rows := rows w; group := group w |}.

Definition set_row (l : loc) (d : gmap string Qc) (w : World) : World :=
  {| balance := balance w; rows := <[l := d]> (rows w); group := group w |}.

Definition set_group (g : UserGroup) (w : World) : World :=
  {| balance := balance w; rows := rows w; group := g |}.

(** ** Computations that may raise *)

Inductive outcome (A : Type) : Type :=
| Return (a : A) (w : World)
| Raise (e : exn) (w : World).
Arguments Return {A} a w.
Arguments Raise {A} e w.

Definition M (A : Type) : Type := World → outcome A.

Definition ret {A} (a : A) : M A := λ w, Return a w.
Definition raise {A} (e : exn) : M A := λ w, Raise e w.
Definition bind {A B} (c : M A) (k : A → M B) : M B :=
  λ w, match c w with
       | Return a w' => k a w'
       | Raise e w' => Raise e w'
       end.
Definition get : M World := λ w, Return w w.
Definition modify (f : World → World) : M unit := λ w, Return tt (f w).
Definition lift {A} (r : exn + A) : M A :=
  match r with inl e => raise e | inr a => ret a end.

Notation "x ←! c ; k" := (bind c (λ x, k))
  (at level 20, c at level 100, k at level 200, right associativity,
   format "x  ←!  c ;  '/' k").
Notation "c ;;! k" := (bind c (λ _, k))
  (at level 100, k at level 200, right associativity).

(** ** Applying an expense *)

(** One iteration of the loop of [Expense.apply_split]. *)
Definition apply_share (payer : User) (user : User) (share : Qc) (w : World)
    : World :=
  if bool_decide (user = payer) then w
  else
    let w1 := set_user_balance user (isub (user_balance w user) payer share) w in
    set_user_balance payer (iadd (user_balance w1 payer) user share) w1.

(** [Expense.apply_split]: the loop over [self.splits.items()].  The
    iterations touch pairwise different entries, so the order in which
    the dictionary is traversed does not matter. *)
Definition apply_split (e : Expense) : M unit :=
  modify (λ w, map_fold (apply_share (payer e)) w (splits e)).

(** [self.balance_sheet[k]] on the outer [defaultdict]: a missing key
    creates a new, empty inner [defaultdict(float)]. *)
Definition sheet_row (k : string) (w : World) : loc * World :=
  match balance_sheet (group w) !! k with
  | Some l => (l, w)
  | None =>
      let l := fresh (dom (rows w)) in
      let g := group w in
      (l, {| balance := balance w;
             rows := <[l := ∅]> (rows w);
             group := {| name := name g; users := users g;
                         expenses := expenses g;
                         settlement_algo := settlement_algo g;
                         balance_sheet := <[k := l]> (balance_sheet g) |} |})
  end.

(** One iteration of the second loop of [add_expense]:
    [self.balance_sheet[user.id][payer.id] += share]. *)
Definition record_share (payer : User) (user : User) (share : Qc) (w : World)
    : World :=
  if bool_decide (user ≠ payer) then
    let '(l, w1) := sheet_row user w in
    set_row l (iadd (row_at w1 l) payer share) w1
  else w.

Definition append_expense (e : Expense) (w : World) : World :=
  let g := group w in
  set_group {| name := name g; users := users g;
               expenses := expenses g ++ [e];
               settlement_algo := settlement_algo g;
               balance_sheet := balance_sheet g |} w.

(** [UserGroup.add_expense]. *)
Definition add_expense (payer : User) (amount : Qc) (split_type : string)
    (custom_splits : option (gmap User Qc)) (description : string) : M unit :=
  split_strategy ←! lift (get_strategy split_type);
  w ←! get;
  expense ←! lift (Expense_init payer amount (users (group w)) split_strategy
                     custom_splits description);
  apply_split expense ;;!
  modify (append_expense expense) ;;!
  modify (λ w, map_fold (record_share payer) w (splits expense)).

(** ** Settlement strategies *)

Record SettlementStrategy : Type := {
  settle : User → User → Qc → M unit
}.

(** [HeapSettlement.settle] is declared without [self]; the call
    [settlement_strategy().settle(payer=..., ...)] of [settle_expense]
    binds the instance to [payer] as well and fails before the body
    runs. *)
Definition HeapSettlement : SettlementStrategy := {|
  settle payer payee amount :=
    raise (TypeError
             "HeapSettlement.settle() got multiple values for argument 'payer'")
|}.

Definition BruteForceSettlement : SettlementStrategy := {|
  settle payer payee amount := λ w,
    match balance_sheet (group w) !! payer with
    | Some l =>
        match row_at w l !! payee with
        | Some outstanding =>
            if bool_decide (amount ≤ outstanding) then
              let w1 := set_row l (isub (row_at w l) payee amount) w in
              let w2 := set_user_balance payee
                          (isub (user_balance w1 payee) payer amount) w1 in
              let w3 := set_user_balance payer
                          (isub (user_balance w2 payer) payee amount) w2 in
              Return tt w3
            else Raise SettlementExceedsBalance w
        | None => Raise NoOutstandingBalance w
        end
    | None => Raise NoOutstandingBalance w
    end
|}.

(** [SettlementStrategy._registry] after the two [register] calls. *)
Definition settlement_registry : gmap string SettlementStrategy :=
  <[SettlementAlgo.BRUTE_FORCE := BruteForceSettlement]>
    (<[SettlementAlgo.HEAP_BASED := HeapSettlement]> ∅).

Definition get_settlement_algo (settlement_algo : string)
    : exn + SettlementStrategy :=
  match settlement_registry !! settlement_algo with
  | Some cls => inr cls
  | None => inl (UnknownSettlementPolicy settlement_algo)
  end.

(** [UserGroup.settle_expense]. *)
Definition settle_expense (payer payee : User) (amount : Qc) : M unit :=
  w ←! get;
  settlement_strategy ←! lift (get_settlement_algo (settlement_algo (group w)));
  settle settlement_strategy payer payee amount.

(** ** The passbook *)

(** [UserGroup.get_passbook]: [dict(self.balance_sheet)] builds a new
    outer dictionary whose values are the very row objects of the
    balance sheet. *)
Definition get_passbook : M (gmap string loc) :=
  w ←! get; ret (balance_sheet (group w)).

(** What a caller sees when it reads (or prints) a passbook-shaped
    dictionary in a given state. *)
Definition contents (w : World) (d : gmap string loc)
    : gmap string (gmap string Qc) :=
  row_at w <$> d.

(** [balance_sheet[debtor][creditor]] if that entry exists. *)
Definition sheet_entry (w : World) (debtor creditor : string) : option Qc :=
  l ← balance_sheet (group w) !! debtor; row_at w l !! creditor.

(** [user.balance[other]] if that entry exists. *)
Definition balance_entry (w : World) (user other : string) : option Qc :=
  user_balance w user !! other.

(** What a caller can do with the dictionary [pb] it got from
    [get_passbook]: [pb[debtor][creditor] = v] writes into the row
    object stored under [debtor] ([pb] is a plain [dict], so a missing
    debtor is a [KeyError]). *)
Definition passbook_set_inner (pb : gmap string loc) (debtor creditor : string)
    (v : Qc) : M unit :=
  match pb !! debtor with
  | Some l => modify (λ w, set_row l (<[creditor := v]> (row_at w l)) w)
  | None => raise (KeyError debtor)
  end.

(** [User.get_balance]. *)
Definition get_balance (w : World) (user : User) : Qc :=
  sum_values (user_balance w user).

(** The sum, over the participants of the group, of all their balance
    entries. *)
Definition total_balance (w : World) : Qc :=
  foldr (λ user acc, get_balance w user + acc) 0 (users (group w)).

(** The same sum over every user object of the store. *)
Definition store_total (w : World) : Qc :=
  map_fold (λ _ d acc, acc + sum_values d) 0 (balance w).

(** ** Observations and scenarios used in the statements *)

Definition state_of {A} (o : outcome A) : World :=
  match o with Return _ w => w | Raise _ w => w end.

Definition raised {A} (o : outcome A) : option exn :=
  match o with Return _ _ => None | Raise e _ => Some e end.

(** [balance_sheet[payer][payee]], an absent entry counting as 0. *)
Definition outstanding (w : World) (payer payee : User) : Qc :=
  default 0 (sheet_entry w payer payee).

(** The group of the example: Alice, Bob and Charlie, direct pairwise
    settlement. *)
Definition goa_trip : World :=
  fresh_world "Goa Trip" ["Alice"; "Bob"; "Charlie"] SettlementAlgo.BRUTE_FORCE.

(** ... after [add_expense(payer=alice, amount=300, split_type=EQUAL)]. *)
Definition after_equal_expense : World :=
  state_of (add_expense "Alice" #300 SplitType.EQUAL None "" goa_trip).

(** ... and after [settle_expense(payer=bob, payee=alice, amount=100)]. *)
Definition after_settlement : World :=
  state_of (settle_expense "Bob" "Alice" #100 after_equal_expense).

(** The states the two mutating operations can produce, starting from
    a newly created group (the users may already carry balances, and
    other dictionaries may already exist). *)
Inductive reachable : World → Prop :=
| reachable_init b r name users algo :
    reachable {| balance := b; rows := r;
                 group := UserGroup_init name users algo |}
| reachable_add_expense w w' payer amount split_type custom_splits descr :
    reachable w →
    add_expense payer amount split_type custom_splits descr w = Return tt w' →
    reachable w'
| reachable_settle_expense w w' payer payee amount :
    reachable w →
    settle_expense payer payee amount w = Return tt w' →
    reachable w'.

(** Shape of the balance sheet: every row it mentions exists, and
    different debtors have different row objects. *)
Definition sheet_wf (w : World) : Prop :=
  (∀ k l, balance_sheet (group w) !! k = Some l → is_Some (rows w !! l))
  ∧ (∀ k1 k2 l, balance_sheet (group w) !! k1 = Some l →
                balance_sheet (group w) !! k2 = Some l → k1 = k2).

(** The sum of [g] over the values of a dictionary. *)
Definition map_sum {A} (g : A → Qc) (m : gmap string A) : Qc :=
  map_fold (λ _ v acc, acc + g v) 0 m.

(** The percentages of the example:
    [{alice: 40, bob: 40, charlie: 20}]. *)
Definition example_percentages : gmap User Qc :=
  <["Charlie" := #20]> (<["Bob" := #40]> (<["Alice" := #40]> ∅)).

(** An expense with its amounts as plain fractions, for comparing a
    computed expense with a literal one. *)
Definition expense_view (e : Expense) : User * Q * gmap User Q * string :=
  (payer e, this (amount e), this <$> splits e, description e).

(** The caller of scenario A fetches the passbook and overwrites Bob's
    entry for Alice in it: [pb = group.get_passbook();
    pb[bob.id][alice.id] = 0]. *)
Definition overwrite_through_passbook : M unit :=
  pb ←! get_passbook; passbook_set_inner pb "Bob" "Alice" #0.

Definition after_overwrite : World :=
  state_of (overwrite_through_passbook after_equal_expense).

(** *** Readings of the specification that the code does not satisfy *)

(** Settlement bound, with an absent entry counting as 0. *)
Definition settlement_bound_as_stated (w : World) (payer payee : User)
    (amount : Qc) : Prop :=
  (settle_expense payer payee amount w = Raise SettlementExceedsBalance w
   ↔ outstanding w payer payee < amount)
  ∧ (¬ outstanding w payer payee < amount →
     ∃ w', settle_expense payer payee amount w = Return tt w'
           ∧ sheet_entry w' payer payee
             = Some (outstanding w payer payee - amount)).

(** Repeating a full repayment fails with [NoOutstandingBalance]. *)
Definition repeat_settlement_as_stated (w : World) (bob alice : User) : Prop :=
  sheet_entry w bob alice = Some #100 →
  ∃ w1, settle_expense bob alice #100 w = Return tt w1
        ∧ outstanding w1 bob alice = 0
        ∧ settle_expense bob alice #100 w1 = Raise NoOutstandingBalance w1.

(** Percentage contract: missing shares only when [custom_shares] is
    absent. *)
Definition percentage_contract_as_stated (payer : User) (amount : Qc)
    (users : list User) (custom_splits : option (gmap User Qc)) : Prop :=
  match custom_splits with
  | None =>
      split PercentageSplit payer amount users custom_splits
        = inl (MissingCustomShares "PercentageSplit")
  | Some d =>
      (sum_values d ≠ #100 →
       split PercentageSplit payer amount users custom_splits
         = inl PercentageSumMismatch)
      ∧ (sum_values d = #100 →
         split PercentageSplit payer amount users custom_splits
           = inr ((λ percent, percent / #100 * amount) <$> d))
  end.


(** [user.balance[other]] after the loop of [apply_split] has run over
    the shares [s] of an expense paid by [p], in terms of the state
    before the loop. *)
Definition entry_after_split (p : User) (s : gmap User Qc) (w : World)
    (user other : string) : option Qc :=
  if decide (user = p) then
    if decide (other = p) then balance_entry w user other
    else match s !! other with
         | Some share => Some (getitem (user_balance w p) other + share)
         | None => balance_entry w user other
         end
  else if decide (other = p) then
    match s !! user with
    | Some share => Some (getitem (user_balance w user) p - share)
    | None => balance_entry w user other
    end
  else balance_entry w user other.

(** [balance_sheet[debtor][creditor]] after the second loop of
    [add_expense] has run over the shares [s] of an expense paid by
    [p], in terms of the state before the loop. *)
Definition sheet_after_split (p : User) (s : gmap User Qc) (w : World)
    (debtor creditor : string) : option Qc :=
  if decide (creditor = p ∧ debtor ≠ p) then
    match s !! debtor with
    | Some share => Some (outstanding w debtor p + share)
    | None => sheet_entry w debtor creditor
    end
  else sheet_entry w debtor creditor.

(** The states of a group that was created over new users and has
    only recorded expenses since (no settlement yet). *)
Inductive expense_only : World → Prop :=
| expense_only_new name users algo :
    expense_only (fresh_world name users algo)
| expense_only_add w w' paid_by total split_type custom_splits descr :
    expense_only w →
    add_expense paid_by total split_type custom_splits descr w = Return tt w' →
    expense_only w'.

(** What [debtor] owes [creditor] according to an expense log: the
    debtor's shares in the expenses the creditor paid, added up in the
    order of the log, as the [+=] of [add_expense] adds them. *)
Definition owed (log : list Expense) (debtor creditor : User) : Qc :=
  foldl (λ acc e,
           if bool_decide (payer e = creditor ∧ debtor ≠ creditor) then
             match splits e !! debtor with
             | Some share => acc + share
             | None => acc
             end
           else acc)
        0 log.

(** The exact shares of the example:
    [{alice: 100, bob: 200, charlie: 100}]. *)
Definition example_exact_shares : gmap User Qc :=
  <["Charlie" := #100]> (<["Bob" := #200]> (<["Alice" := #100]> ∅)).

(** * Properties *)

(** ** Rational arithmetic and sums over dictionaries *)

Lemma Qc_of_Z_0 : #0 = 0.
Proof. apply Z2Qc_inj_0. Qed.

Lemma sum_values_empty : sum_values ∅ = 0.
Proof. unfold sum_values. by rewrite map_fold_empty. Qed.

(** ** Split strategies *)

(** C9.  An empty [custom_splits] dictionary counts as missing: both
    the Exact and the Percentage strategy raise "Custom splits
    required ..." for it, not their sum-mismatch error, although the
    values of an empty dictionary sum to 0 and so pass the Exact sum
    check for an amount of 0. *)
Theorem empty_custom_splits_count_as_missing payer amount users :
  split ExactSplit payer amount users (Some ∅)
    = inl (MissingCustomShares "ExactSplit")
  ∧ split PercentageSplit payer amount users (Some ∅)
    = inl (MissingCustomShares "PercentageSplit")
  ∧ MissingCustomShares "ExactSplit" ≠ SplitSumMismatch
  ∧ MissingCustomShares "PercentageSplit" ≠ PercentageSumMismatch
  ∧ sum_values ∅ = #0
  ∧ split ExactSplit payer #0 users (Some ∅)
    = inl (MissingCustomShares "ExactSplit").
Proof.
  split_and!; try done.
  by rewrite sum_values_empty, Qc_of_Z_0.
Qed.

(** C8, as stated, fails for an empty dictionary of percentages: they
    sum to 0, not 100, yet the error is the missing-shares one. *)
Lemma percentage_contract_counterexample :
  ¬ percentage_contract_as_stated "Alice" #100 ["Alice"] (Some ∅).
Proof.
  intros [H _].
  assert (Hs : sum_values ∅ ≠ #100) by (rewrite sum_values_empty; done).
  specialize (H Hs). discriminate H.
Qed.

(** C8 (amended).  The Percentage strategy fails with
    [MissingCustomShares] when [custom_splits] is absent or empty,
    fails with [PercentageSumMismatch] when it is non-empty and its
    percentages do not sum to 100, and otherwise returns a share map
    with exactly the listed participants, each at
    [percentage / 100 * amount]. *)
Theorem percentage_split_contract payer amount users custom_splits :
  (custom_splits = None ∨ custom_splits = Some ∅ →
   split PercentageSplit payer amount users custom_splits
     = inl (MissingCustomShares "PercentageSplit"))
  ∧ (∀ d, custom_splits = Some d → d ≠ ∅ → sum_values d ≠ #100 →
     split PercentageSplit payer amount users custom_splits
       = inl PercentageSumMismatch)
  ∧ (∀ d, custom_splits = Some d → d ≠ ∅ → sum_values d = #100 →
     ∃ shares,
       split PercentageSplit payer amount users custom_splits = inr shares
       ∧ ∀ user, shares !! user
                 = (λ percent, percent / #100 * amount) <$> d !! user).
Proof.
  split; [|split].
  - intros [-> | ->]; done.
  - intros d -> Hne Hsum. simpl.
    rewrite bool_decide_eq_false_2 by done.
    by rewrite bool_decide_eq_true_2.
  - intros d -> Hne Hsum. eexists. split.
    + simpl. rewrite bool_decide_eq_false_2 by done.
      rewrite bool_decide_eq_false_2; [done | by intros []].
    + intros user. by rewrite lookup_fmap.
Qed.

Lemma percentage_split_contract_witness :
  ∃ shares,
    split PercentageSplit "Charlie" #500 ["Alice"; "Bob"; "Charlie"]
      (Some example_percentages) = inr shares
    ∧ ∀ user, shares !! user
              = (λ percent, percent / #100 * #500)
                  <$> example_percentages !! user.
Proof.
  destruct (percentage_split_contract "Charlie" #500
              ["Alice"; "Bob"; "Charlie"] (Some example_percentages))
    as (_ & _ & H).
  apply (H example_percentages).
  - reflexivity.
  - intros Hempty. apply (f_equal (λ d, this <$> d !! "Alice")) in Hempty.
    vm_compute in Hempty. discriminate Hempty.
  - apply Qc_decomp. vm_compute. reflexivity.
Defined.

(** ** Settlement *)

Lemma get_settlement_algo_inv algo cls :
  get_settlement_algo algo = inr cls →
  (algo = SettlementAlgo.BRUTE_FORCE ∧ cls = BruteForceSettlement)
  ∨ (algo = SettlementAlgo.HEAP_BASED ∧ cls = HeapSettlement).
Proof.
  unfold get_settlement_algo, settlement_registry. intros H.
  destruct (decide (algo = SettlementAlgo.BRUTE_FORCE)) as [->|Hb].
  { rewrite lookup_insert_eq in H. left. by inversion H. }
  rewrite lookup_insert_ne in H by done.
  destruct (decide (algo = SettlementAlgo.HEAP_BASED)) as [->|Hh].
  { rewrite lookup_insert_eq in H. right. by inversion H. }
  rewrite lookup_insert_ne in H by done. by rewrite lookup_empty in H.
Qed.

Lemma settle_expense_brute_force w payer payee amount :
  settlement_algo (group w) = SettlementAlgo.BRUTE_FORCE →
  settle_expense payer payee amount w
  = settle BruteForceSettlement payer payee amount w.
Proof.
  intros Halgo. unfold settle_expense, bind, get.
  by rewrite Halgo.
Qed.

(** The state a successful direct settlement leaves. *)
Lemma settle_expense_Return w w' payer payee amount :
  settle_expense payer payee amount w = Return tt w' →
  ∃ l old,
    balance_sheet (group w) !! payer = Some l
    ∧ row_at w l !! payee = Some old
    ∧ amount ≤ old
    ∧ w' =
      let w1 := set_row l (isub (row_at w l) payee amount) w in
      let w2 := set_user_balance payee
                  (isub (user_balance w1 payee) payer amount) w1 in
      set_user_balance payer (isub (user_balance w2 payer) payee amount) w2.
Proof.
  unfold settle_expense, bind, get. intros H.
  destruct (get_settlement_algo (settlement_algo (group w))) as [e|cls] eqn:Hcls;
    [discriminate|].
  apply get_settlement_algo_inv in Hcls as [[_ ->]|[_ ->]]; [|discriminate].
  simpl in H.
  destruct (balance_sheet (group w) !! payer) as [l|]; [|discriminate].
  destruct (row_at w l !! payee) as [old|] eqn:Hold; [|discriminate].
  case_bool_decide; [|discriminate].
  exists l, old. split_and!; try done. by inversion H.
Qed.

Lemma settle_expense_Raise w w' e payer payee amount :
  settle_expense payer payee amount w = Raise e w' → w' = w.
Proof.
  unfold settle_expense, bind, get. intros H.
  destruct (get_settlement_algo (settlement_algo (group w))) as [e'|cls] eqn:Hcls.
  { simpl in H. by inversion H. }
  apply get_settlement_algo_inv in Hcls as [[_ ->]|[_ ->]]; simpl in H.
  - destruct (balance_sheet (group w) !! payer) as [l|]; [|by inversion H].
    destruct (row_at w l !! payee) as [old|]; [|by inversion H].
    case_bool_decide; by inversion H.
  - by inversion H.
Qed.

Lemma settle_absent w payer payee amount :
  settlement_algo (group w) = SettlementAlgo.BRUTE_FORCE →
  sheet_entry w payer payee = None →
  settle_expense payer payee amount w = Raise NoOutstandingBalance w.
Proof.
  intros Halgo. rewrite (settle_expense_brute_force _ _ _ _ Halgo).
  unfold sheet_entry. simpl.
  destruct (balance_sheet (group w) !! payer) as [l|]; simpl; [|done].
  by intros ->.
Qed.

Lemma settle_exceeds w payer payee amount old :
  settlement_algo (group w) = SettlementAlgo.BRUTE_FORCE →
  sheet_entry w payer payee = Some old →
  old < amount →
  settle_expense payer payee amount w = Raise SettlementExceedsBalance w.
Proof.
  intros Halgo. rewrite (settle_expense_brute_force _ _ _ _ Halgo).
  unfold sheet_entry. simpl.
  destruct (balance_sheet (group w) !! payer) as [l|]; simpl; [|done].
  intros -> Hlt. rewrite bool_decide_eq_false_2; [done|].
  by apply Qclt_not_le.
Qed.

Lemma settle_succeeds w payer payee amount old :
  settlement_algo (group w) = SettlementAlgo.BRUTE_FORCE →
  sheet_entry w payer payee = Some old →
  amount ≤ old →
  ∃ w', settle_expense payer payee amount w = Return tt w'
        ∧ sheet_entry w' payer payee = Some (old - amount)
        ∧ settlement_algo (group w') = SettlementAlgo.BRUTE_FORCE.
Proof.
  intros Halgo. rewrite (settle_expense_brute_force _ _ _ _ Halgo).
  unfold sheet_entry. simpl.
  destruct (balance_sheet (group w) !! payer) as [l|] eqn:Hl; simpl; [|done].
  intros Hold Hle. rewrite Hold, bool_decide_eq_true_2 by done.
  eexists. split; [done|]. split; [|done].
  unfold sheet_entry. simpl. rewrite Hl. simpl.
  unfold row_at at 1. simpl. rewrite lookup_insert_eq. simpl.
  unfold isub, getitem. by rewrite lookup_insert_eq, Hold.
Qed.

(** C2, as stated, fails where no entry exists: on the new group,
    settling 50 between Bob and Alice exceeds the (absent, hence 0)
    balance, yet the error is [NoOutstandingBalance]. *)
Lemma settlement_bound_counterexample :
  ¬ settlement_bound_as_stated goa_trip "Bob" "Alice" #50.
Proof.
  intros [[_ H] _].
  assert (Hlt : outstanding goa_trip "Bob" "Alice" < #50) by done.
  specialize (H Hlt). apply (f_equal raised) in H.
  vm_compute in H. discriminate H.
Qed.

(** C2 (amended).  On a group with the direct pairwise policy: when
    the balance sheet has an entry [payer][payee], [settle_expense]
    fails with [SettlementExceedsBalance] exactly when the amount
    exceeds that entry and otherwise succeeds, leaving the entry at its
    old value minus the amount; when there is no such entry it fails
    with [NoOutstandingBalance], whatever the amount. *)
Theorem settlement_bound w payer payee amount :
  settlement_algo (group w) = SettlementAlgo.BRUTE_FORCE →
  match sheet_entry w payer payee with
  | Some old =>
      (settle_expense payer payee amount w = Raise SettlementExceedsBalance w
       ↔ old < amount)
      ∧ (¬ old < amount →
         ∃ w', settle_expense payer payee amount w = Return tt w'
               ∧ sheet_entry w' payer payee = Some (old - amount))
  | None =>
      settle_expense payer payee amount w = Raise NoOutstandingBalance w
  end.
Proof.
  intros Halgo.
  destruct (sheet_entry w payer payee) as [old|] eqn:Hentry;
    [|by apply settle_absent].
  destruct (Qclt_le_dec old amount) as [Hlt|Hle].
  - split; [|done]. split; [done|]. intros _. by eapply settle_exceeds.
  - destruct (settle_succeeds _ _ _ _ _ Halgo Hentry Hle) as (w' & Hok & Hnew & _).
    split.
    + split; [rewrite Hok; discriminate|]. intros Hlt.
      by apply Qclt_not_le in Hlt.
    + intros _. by exists w'.
Qed.

Lemma settlement_bound_witness :
  settlement_algo (group after_equal_expense) = SettlementAlgo.BRUTE_FORCE
  ∧ match sheet_entry after_equal_expense "Bob" "Alice" with
    | Some old =>
        (settle_expense "Bob" "Alice" #40 after_equal_expense
           = Raise SettlementExceedsBalance after_equal_expense
         ↔ old < #40)
        ∧ (¬ old < #40 →
           ∃ w', settle_expense "Bob" "Alice" #40 after_equal_expense
                   = Return tt w'
                 ∧ sheet_entry w' "Bob" "Alice" = Some (old - #40))
    | None =>
        settle_expense "Bob" "Alice" #40 after_equal_expense
          = Raise NoOutstandingBalance after_equal_expense
    end.
Proof.
  split; [vm_compute; reflexivity|].
  apply (settlement_bound after_equal_expense "Bob" "Alice" #40).
  vm_compute. reflexivity.
Defined.

(** Two canonical rationals are equal when their fractions are; this
    is how a computed entry is compared with a literal. *)
Lemma option_Qc_eq (o : option Qc) (y : Qc) :
  this <$> o = Some (this y) → o = Some y.
Proof.
  destruct o as [x|]; [|discriminate]. simpl. intros [= H].
  f_equal. by apply Qc_decomp.
Qed.

Lemma after_equal_expense_entry :
  sheet_entry after_equal_expense "Bob" "Alice" = Some #100.
Proof. apply option_Qc_eq. vm_compute. reflexivity. Qed.

(** C3, as stated, fails in the state of scenario A: the repeated call
    raises [SettlementExceedsBalance]. *)
Lemma repeat_settlement_counterexample :
  ¬ repeat_settlement_as_stated after_equal_expense "Bob" "Alice".
Proof.
  intros H. destruct (H after_equal_expense_entry) as (w1 & H1 & _ & H2).
  assert (w1 = after_settlement) as ->.
  { unfold after_settlement. by rewrite H1. }
  apply (f_equal raised) in H2. vm_compute in H2. discriminate H2.
Qed.

(** C3 (amended).  When [balance_sheet[payer][payee]] equals the
    (positive) amount, e.g. 100 for Bob and Alice after scenario A,
    settling that amount succeeds and leaves the entry present with
    value 0; immediately repeating the identical call fails with
    [SettlementExceedsBalance]. *)
Theorem repeat_settlement w bob alice amount :
  settlement_algo (group w) = SettlementAlgo.BRUTE_FORCE →
  0 < amount →
  sheet_entry w bob alice = Some amount →
  ∃ w1, settle_expense bob alice amount w = Return tt w1
        ∧ sheet_entry w1 bob alice = Some 0
        ∧ settle_expense bob alice amount w1
          = Raise SettlementExceedsBalance w1.
Proof.
  intros Halgo Hpos Hentry.
  destruct (settle_succeeds _ _ _ amount _ Halgo Hentry) as (w1 & Hok & Hnew & Halgo1).
  { apply Qcle_refl. }
  replace (amount - amount) with 0 in Hnew by ring.
  exists w1. split_and!; try done.
  by eapply settle_exceeds.
Qed.

Lemma repeat_settlement_witness :
  ∃ w1, settle_expense "Bob" "Alice" #100 after_equal_expense = Return tt w1
        ∧ sheet_entry w1 "Bob" "Alice" = Some 0
        ∧ settle_expense "Bob" "Alice" #100 w1
          = Raise SettlementExceedsBalance w1.
Proof.
  apply (repeat_settlement after_equal_expense "Bob" "Alice" #100).
  - vm_compute. reflexivity.
  - vm_compute. reflexivity.
  - exact after_equal_expense_entry.
Defined.

(** ** Reading the state after an update *)

Lemma lookup_isub_ne d k k' x : k ≠ k' → isub d k x !! k' = d !! k'.
Proof. intros. unfold isub. by rewrite lookup_insert_ne. Qed.

Lemma lookup_iadd_ne d k k' x : k ≠ k' → iadd d k x !! k' = d !! k'.
Proof. intros. unfold iadd. by rewrite lookup_insert_ne. Qed.

Lemma lookup_isub_eq d k x : isub d k x !! k = Some (getitem d k - x).
Proof. unfold isub. by rewrite lookup_insert_eq. Qed.

Lemma lookup_iadd_eq d k x : iadd d k x !! k = Some (getitem d k + x).
Proof. unfold iadd. by rewrite lookup_insert_eq. Qed.

Lemma user_balance_set_user_balance user user' d w :
  user_balance (set_user_balance user d w) user'
  = if decide (user = user') then d else user_balance w user'.
Proof.
  unfold user_balance, set_user_balance. simpl.
  case_decide as H; [subst; by rewrite lookup_insert_eq|].
  by rewrite lookup_insert_ne.
Qed.

Lemma user_balance_set_row l d w user :
  user_balance (set_row l d w) user = user_balance w user.
Proof. reflexivity. Qed.

Lemma row_at_set_row l l' d w :
  row_at (set_row l d w) l' = if decide (l = l') then d else row_at w l'.
Proof.
  unfold row_at, set_row. simpl.
  case_decide as H; [subst; by rewrite lookup_insert_eq|].
  by rewrite lookup_insert_ne.
Qed.

Lemma row_at_set_user_balance user d w l :
  row_at (set_user_balance user d w) l = row_at w l.
Proof. reflexivity. Qed.

(** ** The shape of the balance sheet is invariant *)

Lemma sheet_wf_ext w w' :
  rows w' = rows w →
  balance_sheet (group w') = balance_sheet (group w) →
  sheet_wf w → sheet_wf w'.
Proof. unfold sheet_wf. intros -> ->. done. Qed.

Lemma sheet_wf_set_row l d w : sheet_wf w → sheet_wf (set_row l d w).
Proof.
  intros [Hdom Hinj]. split; [|done].
  intros k l' Hk. simpl. destruct (decide (l = l')) as [->|Hne].
  - rewrite lookup_insert_eq. by eexists.
  - rewrite lookup_insert_ne by done. by eapply Hdom.
Qed.

Lemma sheet_wf_sheet_row k w :
  sheet_wf w → sheet_wf (sheet_row k w).2.
Proof.
  intros Hwf. unfold sheet_row.
  destruct (balance_sheet (group w) !! k) as [l|] eqn:Hk; [done|].
  destruct Hwf as [Hdom Hinj]. simpl.
  assert (Hfresh : rows w !! fresh (dom (rows w)) = None).
  { apply not_elem_of_dom. apply is_fresh. }
  split; simpl.
  - intros k' l'. rewrite lookup_insert_Some.
    intros [[<- <-]|[Hne Hk']].
    + rewrite lookup_insert_eq. by eexists.
    + destruct (Hdom _ _ Hk') as [d Hd].
      rewrite lookup_insert_ne; [by eexists|].
      intros <-. by rewrite Hfresh in Hd.
  - intros k1 k2 l'. rewrite !lookup_insert_Some.
    intros [[<- <-]|[Hne1 Hk1]] [[<- Heq]|[Hne2 Hk2]]; try done.
    + destruct (Hdom _ _ Hk2) as [d Hd]. by rewrite Hfresh in Hd.
    + subst l'. destruct (Hdom _ _ Hk1) as [d Hd]. by rewrite Hfresh in Hd.
    + by eapply Hinj.
Qed.

Lemma sheet_wf_record_share payer user share w :
  sheet_wf w → sheet_wf (record_share payer user share w).
Proof.
  intros Hwf. unfold record_share. case_bool_decide; [|done].
  pose proof (sheet_wf_sheet_row user w Hwf) as Hwf'.
  destruct (sheet_row user w) as [l w1]. by apply sheet_wf_set_row.
Qed.

Lemma apply_share_rows_group payer user share w :
  rows (apply_share payer user share w) = rows w
  ∧ group (apply_share payer user share w) = group w.
Proof. unfold apply_share. by case_bool_decide. Qed.

Lemma apply_split_rows_group payer (s : gmap User Qc) w :
  rows (map_fold (apply_share payer) w s) = rows w
  ∧ group (map_fold (apply_share payer) w s) = group w.
Proof.
  apply (map_fold_weak_ind (λ w' _, rows w' = rows w ∧ group w' = group w));
    [done|].
  intros user share m w' _ [Hr Hg].
  destruct (apply_share_rows_group payer user share w') as [-> ->]. done.
Qed.

(** What a successful [add_expense] did. *)
Lemma add_expense_Return w w' paid_by total split_type custom_splits descr :
  add_expense paid_by total split_type custom_splits descr w = Return tt w' →
  ∃ strategy e,
    get_strategy split_type = inr strategy
    ∧ Expense_init paid_by total (users (group w)) strategy custom_splits descr
      = inr e
    ∧ w' = map_fold (record_share paid_by)
             (append_expense e (map_fold (apply_share (payer e)) w (splits e)))
             (splits e).
Proof.
  unfold add_expense, apply_split, bind, get, lift, modify. intros H.
  destruct (get_strategy split_type) as [e0|strategy]; [discriminate|].
  simpl in H.
  destruct (Expense_init _ _ _ _ _ _) as [e0|e] eqn:He; [discriminate|].
  simpl in H. exists strategy, e. split_and!; try done. by inversion H.
Qed.

Lemma add_expense_Raise w w' e paid_by total split_type custom_splits descr :
  add_expense paid_by total split_type custom_splits descr w = Raise e w' →
  w' = w.
Proof.
  unfold add_expense, apply_split, bind, get, lift, modify. intros H.
  destruct (get_strategy split_type) as [e0|strategy]; [by inversion H|].
  simpl in H.
  destruct (Expense_init _ _ _ _ _ _) as [e0|e1] eqn:He; [by inversion H|].
  discriminate.
Qed.

Lemma sheet_wf_add_expense w w' paid_by total split_type custom_splits descr :
  add_expense paid_by total split_type custom_splits descr w = Return tt w' →
  sheet_wf w → sheet_wf w'.
Proof.
  intros H Hwf. apply add_expense_Return in H as (strategy & e & _ & _ & ->).
  apply (map_fold_weak_ind (λ w' _, sheet_wf w')).
  - destruct (apply_split_rows_group (payer e) (splits e) w) as [Hr Hg].
    eapply sheet_wf_ext; [| |exact Hwf]; simpl; [done|by rewrite Hg].
  - intros user share m w1 _ Hw1. by apply sheet_wf_record_share.
Qed.

Lemma sheet_wf_settle_expense w w' payer payee amount :
  settle_expense payer payee amount w = Return tt w' →
  sheet_wf w → sheet_wf w'.
Proof.
  intros H Hwf.
  apply settle_expense_Return in H as (l & old & _ & _ & _ & ->).
  simpl. eapply sheet_wf_ext; [| |eapply (sheet_wf_set_row l), Hwf]; done.
Qed.

Lemma reachable_sheet_wf w : reachable w → sheet_wf w.
Proof.
  induction 1 as [| w w' ? ? ? ? ? _ IH H | w w' ? ? ? _ IH H].
  - split; simpl; intros *; by rewrite lookup_empty.
  - by eapply sheet_wf_add_expense.
  - by eapply sheet_wf_settle_expense.
Qed.

(** C10.  A successful [settle_expense(payer, payee, amount)] changes
    nothing but the balance-sheet entry [payer][payee] and the entries
    [payee.balance[payer]] and [payer.balance[payee]]: the name, the
    participant list, the expense list, the settlement policy and the
    balance sheet's debtor-to-row map are the same, and so is every
    other balance-sheet entry and every other entry of every user's
    balance. *)
Theorem settlement_frame w w' payer payee amount :
  reachable w →
  settle_expense payer payee amount w = Return tt w' →
  name (group w') = name (group w)
  ∧ users (group w') = users (group w)
  ∧ expenses (group w') = expenses (group w)
  ∧ settlement_algo (group w') = settlement_algo (group w)
  ∧ balance_sheet (group w') = balance_sheet (group w)
  ∧ (∀ debtor creditor,
       (debtor, creditor) ≠ (payer, payee) →
       sheet_entry w' debtor creditor = sheet_entry w debtor creditor)
  ∧ (∀ user other,
       (user, other) ≠ (payee, payer) →
       (user, other) ≠ (payer, payee) →
       balance_entry w' user other = balance_entry w user other).
Proof.
  intros Hreach H. apply reachable_sheet_wf in Hreach as [_ Hinj].
  apply settle_expense_Return in H as (l & old & Hl & _ & _ & ->).
  simpl. split_and!; try done.
  - intros debtor creditor Hne. unfold sheet_entry. simpl.
    destruct (balance_sheet (group w) !! debtor) as [l'|] eqn:Hl'; [|done].
    simpl. rewrite !row_at_set_user_balance, row_at_set_row.
    case_decide as Heq; [|done]. subst l'.
    assert (debtor = payer) as -> by (by eapply Hinj).
    apply lookup_isub_ne. congruence.
  - intros user other Hne1 Hne2. unfold balance_entry.
    rewrite !user_balance_set_user_balance, !user_balance_set_row.
    repeat case_decide; subst; try done;
      rewrite ?lookup_isub_ne; try done; congruence.
Qed.

Lemma goa_trip_add_expense :
  add_expense "Alice" #300 SplitType.EQUAL None "" goa_trip
  = Return tt after_equal_expense.
Proof. vm_compute. reflexivity. Qed.

Lemma after_equal_expense_settle :
  settle_expense "Bob" "Alice" #100 after_equal_expense
  = Return tt after_settlement.
Proof. vm_compute. reflexivity. Qed.

Lemma reachable_after_equal_expense : reachable after_equal_expense.
Proof.
  eapply reachable_add_expense; [|exact goa_trip_add_expense].
  apply reachable_init.
Qed.

Lemma settlement_frame_witness :
  name (group after_settlement) = name (group after_equal_expense)
  ∧ users (group after_settlement) = users (group after_equal_expense)
  ∧ expenses (group after_settlement) = expenses (group after_equal_expense)
  ∧ settlement_algo (group after_settlement)
    = settlement_algo (group after_equal_expense)
  ∧ balance_sheet (group after_settlement)
    = balance_sheet (group after_equal_expense)
  ∧ (∀ debtor creditor,
       (debtor, creditor) ≠ ("Bob", "Alice") →
       sheet_entry after_settlement debtor creditor
       = sheet_entry after_equal_expense debtor creditor)
  ∧ (∀ user other,
       (user, other) ≠ ("Alice", "Bob") →
       (user, other) ≠ ("Bob", "Alice") →
       balance_entry after_settlement user other
       = balance_entry after_equal_expense user other).
Proof.
  apply (settlement_frame after_equal_expense after_settlement
           "Bob" "Alice" #100).
  - exact reachable_after_equal_expense.
  - exact after_equal_expense_settle.
Defined.

(** ** Errors leave the state alone *)

(** C6.  Whenever [add_expense] or [settle_expense] raises (any of
    the defined errors, or any other exception), the state in which
    the exception leaves the program is the state before the call: the
    expense list, the balance sheet with its rows and every user's
    balance are unchanged. *)
Theorem error_atomicity w w' e :
  (∀ paid_by total split_type custom_splits descr,
     add_expense paid_by total split_type custom_splits descr w = Raise e w' →
     w' = w)
  ∧ (∀ payer payee amount,
       settle_expense payer payee amount w = Raise e w' → w' = w).
Proof.
  split.
  - intros *. apply add_expense_Raise.
  - intros *. apply settle_expense_Raise.
Qed.

Lemma error_atomicity_witness :
  (add_expense "Alice" #100 SplitType.EXACT None "" goa_trip
     = Raise (MissingCustomShares "ExactSplit") goa_trip
   ∧ goa_trip = goa_trip)
  ∧ (settle_expense "Bob" "Alice" #50 goa_trip
       = Raise NoOutstandingBalance goa_trip
     ∧ goa_trip = goa_trip).
Proof.
  assert (H1 : add_expense "Alice" #100 SplitType.EXACT None "" goa_trip
               = Raise (MissingCustomShares "ExactSplit") goa_trip)
    by (vm_compute; reflexivity).
  assert (H2 : settle_expense "Bob" "Alice" #50 goa_trip
               = Raise NoOutstandingBalance goa_trip)
    by (vm_compute; reflexivity).
  destruct (error_atomicity goa_trip goa_trip
              (MissingCustomShares "ExactSplit")) as [Hadd _].
  destruct (error_atomicity goa_trip goa_trip NoOutstandingBalance)
    as [_ Hsettle].
  split; (split; [assumption|]).
  - exact (Hadd _ _ _ _ _ H1).
  - exact (Hsettle _ _ _ H2).
Defined.

(** ** Comparing computed dictionaries with literal ones *)

#[local] Instance this_inj : Inj (=) (=) this.
Proof. intros x y. apply Qc_decomp. Qed.

#[local] Instance expense_view_inj : Inj (=) (=) expense_view.
Proof.
  intros [p1 a1 s1 d1] [p2 a2 s2 d2]. unfold expense_view. simpl.
  intros [= -> Ha Hs ->]. apply (inj this) in Ha as ->.
  apply (inj (fmap this)) in Hs as ->. done.
Qed.

Ltac by_fractions f := apply (inj f); vm_compute; reflexivity.

(** C5.  Scenario A: on the new group of Alice, Bob and Charlie,
    [add_expense(payer=Alice, amount=300, split_type=EQUAL)] succeeds
    and the passbook then reads {Bob: {Alice: 100}, Charlie: {Alice:
    100}}.  The recorded expense has a share of 300 / 3 = 100 for each
    of the three participants, the payer included, but the payer's own
    share is skipped: Alice gets no row in the balance sheet and no
    entry for herself in her balance. *)
Theorem equal_split_scenario :
  ∃ w pb e,
    add_expense "Alice" #300 SplitType.EQUAL None "" goa_trip = Return tt w
    ∧ get_passbook w = Return pb w
    ∧ contents w pb
      = {[ "Bob" := {[ "Alice" := #100 ]};
           "Charlie" := {[ "Alice" := #100 ]} ]}
    ∧ expenses (group w) = [e]
    ∧ splits e
      = {[ "Alice" := #300 / #3; "Bob" := #300 / #3; "Charlie" := #300 / #3 ]}
    ∧ #300 / #3 = #100
    ∧ balance_sheet (group w) !! "Alice" = None
    ∧ balance_entry w "Alice" "Alice" = None.
Proof.
  exists after_equal_expense, (balance_sheet (group after_equal_expense)),
    {| payer := "Alice"; amount := #300;
       splits := {[ "Alice" := #100; "Bob" := #100; "Charlie" := #100 ]};
       description := "" |}.
  split_and!.
  - exact goa_trip_add_expense.
  - reflexivity.
  - by_fractions (fmap (M := gmap string) (fmap (M := gmap string) this)).
  - by_fractions (fmap (M := list) expense_view).
  - by_fractions (fmap (M := gmap string) this).
  - by_fractions this.
  - vm_compute. reflexivity.
  - vm_compute. reflexivity.
Qed.

(** ** Sums over dictionaries *)

Section map_sum.
Context {A : Type} (g : A → Qc).
Implicit Types (m : gmap string A) (k : string) (v : A).

Lemma map_sum_empty : map_sum g ∅ = 0.
Proof. unfold map_sum. by rewrite map_fold_empty. Qed.

Lemma map_sum_insert_None m k v :
  m !! k = None → map_sum g (<[k := v]> m) = map_sum g m + g v.
Proof.
  intros Hk. unfold map_sum. rewrite map_fold_insert_L; [done| |done].
  intros. ring.
Qed.

Lemma map_sum_insert m k v :
  map_sum g (<[k := v]> m)
  = map_sum g m - default 0 (g <$> m !! k) + g v.
Proof.
  destruct (m !! k) as [old|] eqn:Hk; simpl.
  - rewrite <- (insert_delete_id m k old) at 2 by done.
    rewrite <- (insert_delete_eq m k v).
    rewrite !map_sum_insert_None by apply lookup_delete_eq. ring.
  - rewrite map_sum_insert_None by done. ring.
Qed.
End map_sum.

Lemma sum_values_map_sum d : sum_values d = map_sum id d.
Proof. reflexivity. Qed.

Lemma store_total_map_sum w : store_total w = map_sum sum_values (balance w).
Proof. reflexivity. Qed.

Lemma sum_values_insert d k v :
  sum_values (<[k := v]> d) = sum_values d - getitem d k + v.
Proof.
  unfold getitem. change (sum_values (<[k := v]> d)) with (map_sum id (<[k := v]> d)).
  rewrite map_sum_insert. change (map_sum id d) with (sum_values d).
  by destruct (d !! k).
Qed.

Lemma sum_values_insert_None d k v :
  d !! k = None → sum_values (<[k := v]> d) = sum_values d + v.
Proof. intros Hk. rewrite sum_values_insert. unfold getitem. rewrite Hk. simpl. ring. Qed.

Lemma sum_values_isub d k x : sum_values (isub d k x) = sum_values d - x.
Proof. unfold isub. rewrite sum_values_insert. ring. Qed.

Lemma sum_values_iadd d k x : sum_values (iadd d k x) = sum_values d + x.
Proof. unfold iadd. rewrite sum_values_insert. ring. Qed.

Lemma store_total_set_user_balance user d w :
  store_total (set_user_balance user d w)
  = store_total w - sum_values (user_balance w user) + sum_values d.
Proof.
  change (store_total (set_user_balance user d w))
    with (map_sum sum_values (<[user := d]> (balance w))).
  rewrite map_sum_insert. change (map_sum sum_values (balance w)) with (store_total w).
  unfold user_balance. destruct (balance w !! user); simpl; [done|].
  by rewrite sum_values_empty.
Qed.

(** ** Conservation *)

Lemma store_total_apply_share payer user share w :
  store_total (apply_share payer user share w) = store_total w.
Proof.
  unfold apply_share. case_bool_decide as Hne; [done|].
  rewrite !store_total_set_user_balance, sum_values_iadd, sum_values_isub.
  ring.
Qed.

Lemma balance_record_share payer user share w :
  balance (record_share payer user share w) = balance w.
Proof.
  unfold record_share. case_bool_decide; [|done].
  unfold sheet_row. by destruct (balance_sheet (group w) !! user).
Qed.

(** Over exact amounts, [add_expense] keeps the sum of all balance
    entries: every share is subtracted from one user's balance and
    added to the payer's. *)
Lemma add_expense_conserves w w' paid_by total split_type custom_splits descr :
  add_expense paid_by total split_type custom_splits descr w = Return tt w' →
  store_total w' = store_total w.
Proof.
  intros H. apply add_expense_Return in H as (strategy & e & _ & _ & ->).
  rewrite !store_total_map_sum.
  replace (balance (map_fold (record_share paid_by)
             (append_expense e (map_fold (apply_share (payer e)) w (splits e)))
             (splits e)))
    with (balance (map_fold (apply_share (payer e)) w (splits e))).
  - rewrite <- !store_total_map_sum.
    apply (map_fold_weak_ind (λ w' _, store_total w' = store_total w)); [done|].
    intros user share m w1 _ <-. apply store_total_apply_share.
  - symmetry.
    apply (map_fold_weak_ind
             (λ w' _, balance w'
                      = balance (map_fold (apply_share (payer e)) w (splits e))));
      [done|].
    intros user share m w1 _ <-. apply balance_record_share.
Qed.

(** Over exact amounts, a successful settlement lowers the sum of all
    users' balance entries by twice the amount: both
    [payee.balance[payer]] and [payer.balance[payee]] go down. *)
Lemma settle_expense_total w w' payer payee amount :
  settle_expense payer payee amount w = Return tt w' →
  store_total w' = store_total w - amount - amount.
Proof.
  intros H. apply settle_expense_Return in H as (l & old & _ & _ & _ & ->).
  simpl. rewrite !store_total_set_user_balance, !sum_values_isub.
  rewrite store_total_map_sum. simpl. rewrite <- store_total_map_sum. ring.
Qed.

(** ** The split-sum law *)

Lemma lookup_foldl_insert (users : list User) (c : Qc) (acc : gmap User Qc)
    (user : User) :
  foldl (λ d u, <[u := c]> d) acc users !! user
  = if decide (user ∈ users) then Some c else acc !! user.
Proof.
  revert acc. induction users as [|u us IH]; intros acc; cbn [foldl].
  - rewrite decide_False; [done|]. apply not_elem_of_nil.
  - rewrite IH. destruct (decide (user ∈ us)) as [Hin|Hnin].
    + rewrite decide_True; [done|]. by right.
    + destruct (decide (user = u)) as [->|Hne].
      * rewrite decide_True by left. apply lookup_insert_eq.
      * rewrite decide_False by (rewrite elem_of_cons; tauto).
        by rewrite lookup_insert_ne.
Qed.




(** ** The passbook *)

(** Writing into a row reached through the passbook is writing into
    the balance sheet. *)
Lemma passbook_write_reaches_ledger w pb debtor creditor v :
  get_passbook w = Return pb w →
  is_Some (pb !! debtor) →
  ∃ w', passbook_set_inner pb debtor creditor v w = Return tt w'
        ∧ sheet_entry w' debtor creditor = Some v.
Proof.
  unfold get_passbook, bind, get, ret. intros [= <-] [l Hl].
  unfold passbook_set_inner. rewrite Hl. eexists. split; [reflexivity|].
  unfold sheet_entry. simpl. rewrite Hl. simpl.
  rewrite row_at_set_row. rewrite decide_True by done.
  apply lookup_insert_eq.
Qed.

(** C7 does not hold of the code.  After scenario A the caller takes
    the passbook [pb] and executes [pb[bob.id][alice.id] = 0]: the
    balance sheet of the group itself now holds 0 for Bob and Alice
    instead of 100, and the settlement of 100 from Bob to Alice, which
    succeeds without the overwrite, fails with
    [SettlementExceedsBalance] after it. *)
Theorem passbook_shares_rows_with_ledger :
  ∃ pb,
    get_passbook after_equal_expense = Return pb after_equal_expense
    ∧ passbook_set_inner pb "Bob" "Alice" #0 after_equal_expense
      = Return tt after_overwrite
    ∧ sheet_entry after_equal_expense "Bob" "Alice" = Some #100
    ∧ sheet_entry after_overwrite "Bob" "Alice" = Some #0
    ∧ settle_expense "Bob" "Alice" #100 after_equal_expense
      = Return tt after_settlement
    ∧ settle_expense "Bob" "Alice" #100 after_overwrite
      = Raise SettlementExceedsBalance after_overwrite.
Proof.
  exists (balance_sheet (group after_equal_expense)). split_and!.
  - reflexivity.
  - vm_compute. reflexivity.
  - exact after_equal_expense_entry.
  - apply option_Qc_eq. vm_compute. reflexivity.
  - exact after_equal_expense_settle.
  - vm_compute. reflexivity.
Qed.

(** ** Conservation at the example *)

(** C1 does not hold of the code.  On the new group the balances sum
    to 0, and they still do after the equal expense of 300 paid by
    Alice; after the successful [settle_expense(payer=Bob, payee=Alice,
    amount=100)] Alice's entry for Bob is 0 but Bob's entry for Alice is
    -200, and the balances sum to -200. *)
Theorem conservation_broken_by_settlement :
  total_balance goa_trip = 0
  ∧ add_expense "Alice" #300 SplitType.EQUAL None "" goa_trip
    = Return tt after_equal_expense
  ∧ total_balance after_equal_expense = 0
  ∧ settle_expense "Bob" "Alice" #100 after_equal_expense
    = Return tt after_settlement
  ∧ balance_entry after_settlement "Alice" "Bob" = Some #0
  ∧ balance_entry after_settlement "Bob" "Alice" = Some (- #200)
  ∧ total_balance after_settlement = - #200
  ∧ store_total after_settlement = - #200.
Proof.
  split_and!.
  - apply Qc_decomp. vm_compute. reflexivity.
  - exact goa_trip_add_expense.
  - apply Qc_decomp. vm_compute. reflexivity.
  - exact after_equal_expense_settle.
  - apply option_Qc_eq. vm_compute. reflexivity.
  - apply option_Qc_eq. vm_compute. reflexivity.
  - apply Qc_decomp. vm_compute. reflexivity.
  - apply Qc_decomp. vm_compute. reflexivity.
Qed.

(** ** The effect of an expense on the users' balances *)

Lemma getitem_balance_entry w user other :
  getitem (user_balance w user) other = default 0 (balance_entry w user other).
Proof. reflexivity. Qed.

Lemma balance_entry_apply_share p i share w user other :
  i ≠ p →
  balance_entry (apply_share p i share w) user other
  = if decide (user = p ∧ other = i) then
      Some (getitem (user_balance w p) i + share)
    else if decide (user = i ∧ other = p) then
      Some (getitem (user_balance w i) p - share)
    else balance_entry w user other.
Proof.
  intros Hip. unfold apply_share. rewrite bool_decide_eq_false_2 by done.
  unfold balance_entry.
  rewrite !user_balance_set_user_balance.
  repeat case_decide; destruct_and?; simplify_eq;
    rewrite ?lookup_iadd_eq, ?lookup_isub_eq; try done.
  - rewrite lookup_iadd_ne; [done|]. intros ->. tauto.
  - rewrite lookup_isub_ne; [done|]. intros ->. tauto.
Qed.

Lemma balance_entry_apply_split p (s : gmap User Qc) w user other :
  balance_entry (map_fold (apply_share p) w s) user other
  = entry_after_split p s w user other.
Proof.
  revert user other.
  apply (map_fold_weak_ind
           (λ w' m, ∀ user other,
              balance_entry w' user other = entry_after_split p m w user other)).
  - intros user other. unfold entry_after_split.
    repeat case_decide; by rewrite ?lookup_empty.
  - intros i share m w' Hi IH user other.
    destruct (decide (i = p)) as [->|Hip].
    + unfold apply_share. rewrite bool_decide_eq_true_2 by done.
      rewrite IH. unfold entry_after_split.
      repeat case_decide; try done; by rewrite lookup_insert_ne.
    + rewrite balance_entry_apply_share by done.
      rewrite !getitem_balance_entry, !IH.
      unfold entry_after_split.
      repeat case_decide; destruct_and?; subst; try done;
        rewrite ?lookup_insert_eq, ?Hi; try done;
        rewrite ?lookup_insert_ne by done; try done.
      * rewrite lookup_insert_ne; [done|]. intros ->. tauto.
      * rewrite lookup_insert_ne; [done|]. intros ->. tauto.
Qed.

(** ** The effect of an expense on the balance sheet *)

Lemma sheet_entry_record_share p i share w debtor creditor :
  sheet_wf w →
  i ≠ p →
  sheet_entry (record_share p i share w) debtor creditor
  = if decide (debtor = i ∧ creditor = p) then
      Some (outstanding w i p + share)
    else sheet_entry w debtor creditor.
Proof.
  intros [Hdom Hinj] Hip. unfold record_share.
  rewrite bool_decide_eq_true_2 by done.
  unfold sheet_row, outstanding, sheet_entry.
  destruct (balance_sheet (group w) !! i) as [l|] eqn:Hl; simpl.
  - destruct (balance_sheet (group w) !! debtor) as [l'|] eqn:Hl'; simpl.
    + rewrite row_at_set_row. case_decide as Hll; [subst l'|].
      * assert (debtor = i) as -> by (by eapply Hinj).
        case_decide as Hc; [destruct Hc as [_ ->]; apply lookup_iadd_eq|].
        rewrite lookup_iadd_ne; [done|]. intros ->. tauto.
      * rewrite decide_False; [done|]. intros [-> _]. congruence.
    + rewrite decide_False; [done|]. intros [-> _]. congruence.
  - assert (Hfresh : rows w !! fresh (dom (rows w)) = None).
    { apply not_elem_of_dom. apply is_fresh. }
    destruct (decide (debtor = i)) as [->|Hdi].
    + rewrite lookup_insert_eq. simpl. rewrite row_at_set_row.
      rewrite (decide_True (P := fresh _ = fresh _)) by done.
      unfold row_at at 1. simpl. rewrite lookup_insert_eq. simpl.
      rewrite Hl. simpl.
      case_decide as Hc; [destruct Hc as [_ ->]; apply lookup_iadd_eq|].
      rewrite lookup_iadd_ne; [done|]. intros ->. tauto.
    + rewrite lookup_insert_ne by done.
      rewrite decide_False by (intros [? _]; done).
      destruct (balance_sheet (group w) !! debtor) as [l'|] eqn:Hl'; [|done].
      simpl. rewrite row_at_set_row.
      destruct (Hdom _ _ Hl') as [r Hr].
      rewrite decide_False by (intros <-; congruence).
      unfold row_at. simpl. rewrite lookup_insert_ne; [done|].
      intros <-. congruence.
Qed.

Lemma sheet_entry_record_split p (s : gmap User Qc) w :
  sheet_wf w →
  sheet_wf (map_fold (record_share p) w s)
  ∧ ∀ debtor creditor,
      sheet_entry (map_fold (record_share p) w s) debtor creditor
      = sheet_after_split p s w debtor creditor.
Proof.
  intros Hwf.
  apply (map_fold_weak_ind
           (λ w' m, sheet_wf w'
                    ∧ ∀ debtor creditor,
                        sheet_entry w' debtor creditor
                        = sheet_after_split p m w debtor creditor)).
  - split; [done|]. intros debtor creditor. unfold sheet_after_split.
    case_decide; by rewrite ?lookup_empty.
  - intros i share m w' Hi [Hwf' IH]. split.
    { by apply sheet_wf_record_share. }
    intros debtor creditor.
    destruct (decide (i = p)) as [->|Hip].
    + unfold record_share. rewrite bool_decide_eq_false_2 by (intros ?; done).
      rewrite IH. unfold sheet_after_split.
      case_decide as Hc; [|done].
      rewrite lookup_insert_ne; [done|]. intros <-. tauto.
    + rewrite sheet_entry_record_share by done.
      unfold outstanding. rewrite !IH. unfold sheet_after_split.
      repeat case_decide; destruct_and?; simplify_eq;
        rewrite ?lookup_insert_eq, ?Hi; try done; try tauto.
      * rewrite lookup_insert_ne; [done|]. intros ->. tauto.
Qed.

(** ** What a successful [add_expense] leaves behind *)

Lemma record_share_group_fields p i share w :
  name (group (record_share p i share w)) = name (group w)
  ∧ users (group (record_share p i share w)) = users (group w)
  ∧ expenses (group (record_share p i share w)) = expenses (group w)
  ∧ settlement_algo (group (record_share p i share w))
    = settlement_algo (group w).
Proof.
  unfold record_share. case_bool_decide; [|done].
  unfold sheet_row. by destruct (balance_sheet (group w) !! i).
Qed.

Lemma record_split_group_fields p (s : gmap User Qc) w :
  name (group (map_fold (record_share p) w s)) = name (group w)
  ∧ users (group (map_fold (record_share p) w s)) = users (group w)
  ∧ expenses (group (map_fold (record_share p) w s)) = expenses (group w)
  ∧ settlement_algo (group (map_fold (record_share p) w s))
    = settlement_algo (group w).
Proof.
  apply (map_fold_weak_ind
           (λ w' _, name (group w') = name (group w)
                    ∧ users (group w') = users (group w)
                    ∧ expenses (group w') = expenses (group w)
                    ∧ settlement_algo (group w') = settlement_algo (group w)));
    [done|].
  intros i share m w' _ (Hn & Hu & He & Ha).
  destruct (record_share_group_fields p i share w') as (-> & -> & -> & ->).
  done.
Qed.

Lemma record_split_balance p (s : gmap User Qc) w :
  balance (map_fold (record_share p) w s) = balance w.
Proof.
  apply (map_fold_weak_ind (λ w' _, balance w' = balance w)); [done|].
  intros i share m w' _ <-. apply balance_record_share.
Qed.

Lemma Expense_init_inv paid_by total users strategy custom_splits descr e :
  Expense_init paid_by total users strategy custom_splits descr = inr e →
  ∃ s, split strategy paid_by total users custom_splits = inr s
       ∧ e = {| payer := paid_by; amount := total; splits := s;
                description := descr |}.
Proof.
  unfold Expense_init.
  destruct (split strategy paid_by total users custom_splits) as [|s];
    [discriminate|].
  intros [= <-]. by exists s.
Qed.

(** The state after a successful [add_expense], with the shares made
    explicit. *)
Lemma add_expense_Return_shares w w' paid_by total split_type custom_splits
    descr :
  add_expense paid_by total split_type custom_splits descr w = Return tt w' →
  ∃ strategy s,
    get_strategy split_type = inr strategy
    ∧ split strategy paid_by total (users (group w)) custom_splits = inr s
    ∧ w' = map_fold (record_share paid_by)
             (append_expense
                {| payer := paid_by; amount := total; splits := s;
                   description := descr |}
                (map_fold (apply_share paid_by) w s))
             s.
Proof.
  intros H. apply add_expense_Return in H as (strategy & e & Hs & He & ->).
  apply Expense_init_inv in He as (s & Hsplit & ->).
  by exists strategy, s.
Qed.

Lemma add_expense_group_fields w paid_by (s : gmap User Qc) e :
  let w' := map_fold (record_share paid_by)
              (append_expense e (map_fold (apply_share paid_by) w s)) s in
  expenses (group w') = expenses (group w) ++ [e]
  ∧ name (group w') = name (group w)
  ∧ users (group w') = users (group w)
  ∧ settlement_algo (group w') = settlement_algo (group w).
Proof.
  intros w'. subst w'.
  destruct (record_split_group_fields paid_by s
              (append_expense e (map_fold (apply_share paid_by) w s)))
    as (-> & -> & -> & ->).
  simpl. by destruct (apply_split_rows_group paid_by s w) as [_ ->].
Qed.

(** X1.  The expense log: a successful [add_expense] appends exactly one
    expense, holding the payer, the amount, the description and the
    shares its split strategy computed from the group's users, and it
    leaves the group's name, users and settlement policy alone. *)
Theorem add_expense_log w w' paid_by total split_type custom_splits descr :
  add_expense paid_by total split_type custom_splits descr w = Return tt w' →
  ∃ strategy s,
    get_strategy split_type = inr strategy
    ∧ split strategy paid_by total (users (group w)) custom_splits = inr s
    ∧ expenses (group w')
      = expenses (group w)
        ++ [{| payer := paid_by; amount := total; splits := s;
               description := descr |}]
    ∧ name (group w') = name (group w)
    ∧ users (group w') = users (group w)
    ∧ settlement_algo (group w') = settlement_algo (group w).
Proof.
  intros H.
  apply add_expense_Return_shares in H as (strategy & s & Hs & Hsplit & ->).
  exists strategy, s. split; [done|]. split; [done|].
  apply add_expense_group_fields.
Qed.

Lemma add_expense_log_witness :
  ∃ strategy s,
    get_strategy SplitType.EQUAL = inr strategy
    ∧ split strategy "Alice" #300 (users (group goa_trip)) None = inr s
    ∧ expenses (group after_equal_expense)
      = expenses (group goa_trip)
        ++ [{| payer := "Alice"; amount := #300; splits := s;
               description := "" |}]
    ∧ name (group after_equal_expense) = name (group goa_trip)
    ∧ users (group after_equal_expense) = users (group goa_trip)
    ∧ settlement_algo (group after_equal_expense)
      = settlement_algo (group goa_trip).
Proof.
  apply (add_expense_log goa_trip after_equal_expense "Alice" #300
           SplitType.EQUAL None "").
  exact goa_trip_add_expense.
Defined.

(** A successful [add_expense] in terms of the states before and
    after. *)
Lemma add_expense_effect w w' paid_by total split_type custom_splits descr :
  sheet_wf w →
  add_expense paid_by total split_type custom_splits descr w = Return tt w' →
  ∃ e,
    expenses (group w') = expenses (group w) ++ [e]
    ∧ payer e = paid_by
    ∧ sheet_wf w'
    ∧ (∀ user other,
         balance_entry w' user other
         = entry_after_split paid_by (splits e) w user other)
    ∧ (∀ debtor creditor,
         sheet_entry w' debtor creditor
         = sheet_after_split paid_by (splits e) w debtor creditor).
Proof.
  intros Hwf H.
  apply add_expense_Return_shares in H as (strategy & s & _ & _ & ->).
  exists {| payer := paid_by; amount := total; splits := s;
            description := descr |}.
  split; [apply add_expense_group_fields|]. split; [reflexivity|].
  cbn [splits].
  set (w1 := append_expense _ _).
  destruct (apply_split_rows_group paid_by s w) as [Hr Hg].
  assert (Hwf1 : sheet_wf w1).
  { eapply sheet_wf_ext; [| |exact Hwf]; simpl; [done|by rewrite Hg]. }
  destruct (sheet_entry_record_split paid_by s w1 Hwf1) as [Hwf' Hs].
  split; [done|]. split.
  - intros user other. unfold balance_entry at 1, user_balance.
    rewrite record_split_balance. subst w1. simpl.
    apply (balance_entry_apply_split paid_by s w user other).
  - intros debtor creditor. rewrite Hs.
    unfold sheet_after_split, outstanding, sheet_entry, row_at.
    subst w1. simpl. by rewrite Hr, Hg.
Qed.

Lemma add_expense_balance_entries w w' paid_by total split_type custom_splits
    descr :
  add_expense paid_by total split_type custom_splits descr w = Return tt w' →
  ∃ e,
    expenses (group w') = expenses (group w) ++ [e]
    ∧ ∀ user other,
        balance_entry w' user other
        = entry_after_split paid_by (splits e) w user other.
Proof.
  intros H.
  apply add_expense_Return_shares in H as (strategy & s & _ & _ & ->).
  exists {| payer := paid_by; amount := total; splits := s;
            description := descr |}.
  split; [apply add_expense_group_fields|]. cbn [splits].
  intros user other. unfold balance_entry at 1, user_balance.
  rewrite record_split_balance. simpl.
  apply (balance_entry_apply_split paid_by s w user other).
Qed.

(** ** Debts recorded by an expense *)

(** X2.  The balance sheet accumulates: after a successful [add_expense],
    every user other than the payer who has a share in the new expense
    owes the payer that share on top of what the sheet recorded before
    (0 if there was no entry), and no other entry of the balance sheet
    changes; in particular the payer's own share creates no entry. *)
Theorem add_expense_balance_sheet w w' paid_by total split_type custom_splits
    descr :
  reachable w →
  add_expense paid_by total split_type custom_splits descr w = Return tt w' →
  ∃ e,
    expenses (group w') = expenses (group w) ++ [e]
    ∧ (∀ user share,
         user ≠ paid_by → splits e !! user = Some share →
         sheet_entry w' user paid_by
         = Some (outstanding w user paid_by + share))
    ∧ (∀ debtor creditor,
         ¬ (creditor = paid_by ∧ debtor ≠ paid_by
            ∧ is_Some (splits e !! debtor)) →
         sheet_entry w' debtor creditor = sheet_entry w debtor creditor).
Proof.
  intros Hreach H. apply reachable_sheet_wf in Hreach.
  destruct (add_expense_effect _ _ _ _ _ _ _ Hreach H)
    as (e & Hex & _ & _ & _ & Hsheet).
  exists e. split; [done|]. split.
  - intros user share Hne Hshare. rewrite Hsheet. unfold sheet_after_split.
    rewrite decide_True by done. by rewrite Hshare.
  - intros debtor creditor Hno. rewrite Hsheet. unfold sheet_after_split.
    case_decide as Hc; [|done].
    destruct (splits e !! debtor) as [share|] eqn:Hshare; [|done].
    destruct Hno. destruct Hc. split_and!; try done; by eexists.
Qed.

Lemma add_expense_balance_sheet_witness :
  ∃ e,
    expenses (group after_equal_expense) = expenses (group goa_trip) ++ [e]
    ∧ (∀ user share,
         user ≠ "Alice" → splits e !! user = Some share →
         sheet_entry after_equal_expense user "Alice"
         = Some (outstanding goa_trip user "Alice" + share))
    ∧ (∀ debtor creditor,
         ¬ (creditor = "Alice" ∧ debtor ≠ "Alice"
            ∧ is_Some (splits e !! debtor)) →
         sheet_entry after_equal_expense debtor creditor
         = sheet_entry goa_trip debtor creditor).
Proof.
  apply (add_expense_balance_sheet goa_trip after_equal_expense "Alice" #300
           SplitType.EQUAL None "").
  - apply reachable_init.
  - exact goa_trip_add_expense.
Defined.

(** X3.  The users' balances: after a successful [add_expense], for every
    user other than the payer with a share in the new expense, the
    user's entry for the payer went down by the share and the payer's
    entry for the user went up by it (entries that did not exist start
    from 0); no other entry of any user's balance changes. *)
Theorem add_expense_balances w w' paid_by total split_type custom_splits
    descr :
  add_expense paid_by total split_type custom_splits descr w = Return tt w' →
  ∃ e,
    expenses (group w') = expenses (group w) ++ [e]
    ∧ (∀ user share,
         user ≠ paid_by → splits e !! user = Some share →
         balance_entry w' user paid_by
         = Some (getitem (user_balance w user) paid_by - share)
         ∧ balance_entry w' paid_by user
           = Some (getitem (user_balance w paid_by) user + share))
    ∧ (∀ user other,
         ¬ (other = paid_by ∧ user ≠ paid_by ∧ is_Some (splits e !! user)) →
         ¬ (user = paid_by ∧ other ≠ paid_by ∧ is_Some (splits e !! other)) →
         balance_entry w' user other = balance_entry w user other).
Proof.
  intros H.
  destruct (add_expense_balance_entries _ _ _ _ _ _ _ H) as (e & Hex & Hbal).
  exists e. split; [done|]. split.
  - intros user share Hne Hshare. rewrite !Hbal. unfold entry_after_split.
    rewrite (decide_False (P := user = paid_by)) by done.
    rewrite !(decide_True (P := paid_by = paid_by)) by done.
    rewrite (decide_False (P := user = paid_by)) by done.
    by rewrite Hshare.
  - intros user other Hno1 Hno2. rewrite Hbal. unfold entry_after_split.
    repeat case_decide; subst; try done.
    + destruct (splits e !! other) as [share|] eqn:Hshare; [|done].
      destruct Hno2. split_and!; try done; by eexists.
    + destruct (splits e !! user) as [share|] eqn:Hshare; [|done].
      destruct Hno1. split_and!; try done; by eexists.
Qed.

Lemma add_expense_balances_witness :
  ∃ e,
    expenses (group after_equal_expense) = expenses (group goa_trip) ++ [e]
    ∧ (∀ user share,
         user ≠ "Alice" → splits e !! user = Some share →
         balance_entry after_equal_expense user "Alice"
         = Some (getitem (user_balance goa_trip user) "Alice" - share)
         ∧ balance_entry after_equal_expense "Alice" user
           = Some (getitem (user_balance goa_trip "Alice") user + share))
    ∧ (∀ user other,
         ¬ (other = "Alice" ∧ user ≠ "Alice" ∧ is_Some (splits e !! user)) →
         ¬ (user = "Alice" ∧ other ≠ "Alice" ∧ is_Some (splits e !! other)) →
         balance_entry after_equal_expense user other
         = balance_entry goa_trip user other).
Proof.
  apply (add_expense_balances goa_trip after_equal_expense "Alice" #300
           SplitType.EQUAL None "").
  exact goa_trip_add_expense.
Defined.

(** ** Net balances *)





(** ** Groups that have only recorded expenses *)

Lemma expense_only_reachable w : expense_only w → reachable w.
Proof.
  induction 1 as [| w w' ? ? ? ? ? _ IH H].
  - apply reachable_init.
  - by eapply reachable_add_expense.
Qed.

Lemma outstanding_fresh_world name users algo debtor creditor :
  outstanding (fresh_world name users algo) debtor creditor = 0.
Proof. unfold outstanding, sheet_entry. simpl. by rewrite lookup_empty. Qed.

Lemma expense_only_after_equal_expense : expense_only after_equal_expense.
Proof.
  eapply expense_only_add; [|exact goa_trip_add_expense].
  apply expense_only_new.
Qed.

Lemma owed_snoc log e debtor creditor :
  owed (log ++ [e]) debtor creditor
  = if bool_decide (payer e = creditor ∧ debtor ≠ creditor) then
      match splits e !! debtor with
      | Some share => owed log debtor creditor + share
      | None => owed log debtor creditor
      end
    else owed log debtor creditor.
Proof. unfold owed. by rewrite foldl_app. Qed.

(** X5.  The balance sheet is the running sum of the expense log: in
    a group that has only recorded expenses, what the sheet says
    [debtor] owes [creditor] (0 if there is no entry) is the result of
    adding up, in the order of the log, the debtor's shares in the
    expenses that the creditor paid. *)
Theorem balance_sheet_sums_log w debtor creditor :
  expense_only w →
  outstanding w debtor creditor = owed (expenses (group w)) debtor creditor.
Proof.
  intros Hw. revert debtor creditor.
  induction Hw as [| w w' paid_by ? ? ? ? Hw IH H]; intros debtor creditor.
  - apply outstanding_fresh_world.
  - pose proof (reachable_sheet_wf _ (expense_only_reachable _ Hw)) as Hwf.
    destruct (add_expense_effect _ _ _ _ _ _ _ Hwf H)
      as (e & -> & Hp & _ & _ & Hsheet).
    rewrite owed_snoc, <- IH.
    unfold outstanding at 1. rewrite Hsheet. unfold sheet_after_split.
    rewrite Hp. case_decide as Hc.
    + destruct Hc as [-> Hne].
      rewrite bool_decide_eq_true_2 by done.
      by destruct (splits e !! debtor).
    + by rewrite bool_decide_eq_false_2 by (intros [<- ?]; tauto).
Qed.

Lemma balance_sheet_sums_log_witness :
  outstanding after_equal_expense "Bob" "Alice"
  = owed (expenses (group after_equal_expense)) "Bob" "Alice".
Proof.
  apply (balance_sheet_sums_log after_equal_expense "Bob" "Alice").
  exact expense_only_after_equal_expense.
Defined.

(** X6.  The two balance entries of a pair of users are opposite: in
    a group that has only recorded expenses, [user.balance[other]] is
    the negation of [other.balance[user]] (absent entries counting as
    0). *)
Theorem balances_are_opposite w user other :
  expense_only w →
  getitem (user_balance w user) other
  = - getitem (user_balance w other) user.
Proof.
  intros Hw. revert user other.
  induction Hw as [| w w' paid_by ? ? ? ? Hw IH H]; intros user other.
  - unfold getitem, user_balance, fresh_world, balance.
    rewrite !lookup_empty. cbn [default]. rewrite !lookup_empty.
    cbn [default]. ring.
  - destruct (add_expense_balance_entries _ _ _ _ _ _ _ H) as (e & _ & Hbal).
    rewrite !getitem_balance_entry, !Hbal.
    unfold entry_after_split.
    pose proof (IH user other) as IH1.
    rewrite !getitem_balance_entry in IH1.
    pose proof (IH paid_by other) as IH2.
    pose proof (IH user paid_by) as IH3.
    repeat case_decide; destruct_and?; simplify_eq; try tauto;
      repeat match goal with
             | |- context [splits e !! ?k] => destruct (splits e !! k)
             end;
      simpl; try exact IH1.
    + rewrite IH2. ring.
    + rewrite IH3. ring.
Qed.

Lemma balances_are_opposite_witness :
  getitem (user_balance after_equal_expense "Alice") "Bob"
  = - getitem (user_balance after_equal_expense "Bob") "Alice".
Proof.
  apply (balances_are_opposite after_equal_expense "Alice" "Bob").
  exact expense_only_after_equal_expense.
Defined.

(** ** More on settlement *)

(** X9.  A settlement never overdraws: after a successful [settle_expense]
    the entry [payer][payee] of the balance sheet still exists and is
    not negative, whatever the state before and whatever the amount. *)
Theorem settle_expense_entry_nonneg w w' payer payee amount :
  settle_expense payer payee amount w = Return tt w' →
  ∃ left_over,
    sheet_entry w' payer payee = Some left_over ∧ 0 ≤ left_over.
Proof.
  intros H.
  apply settle_expense_Return in H as (l & old & Hl & Hold & Hle & ->).
  exists (old - amount). split.
  - unfold sheet_entry. cbn -[row_at isub]. rewrite Hl. cbn -[row_at isub].
    rewrite !row_at_set_user_balance, row_at_set_row, decide_True by done.
    rewrite lookup_isub_eq. unfold getitem. by rewrite Hold.
  - apply Qcle_minus_iff in Hle. by replace (old - amount) with (old + - amount) by ring.
Qed.

Lemma settle_expense_entry_nonneg_witness :
  ∃ left_over,
    sheet_entry after_settlement "Bob" "Alice" = Some left_over
    ∧ 0 ≤ left_over.
Proof.
  apply (settle_expense_entry_nonneg after_equal_expense after_settlement
           "Bob" "Alice" #100).
  exact after_equal_expense_settle.
Defined.

(** X10.  The sign of the amount is not checked: on a direct pairwise group,
    settling a negative amount against an existing non-negative entry
    always succeeds and makes the recorded debt larger. *)
Theorem settle_expense_negative_amount w payer payee amount old :
  settlement_algo (group w) = SettlementAlgo.BRUTE_FORCE →
  sheet_entry w payer payee = Some old →
  0 ≤ old →
  amount < 0 →
  ∃ w', settle_expense payer payee amount w = Return tt w'
        ∧ sheet_entry w' payer payee = Some (old - amount)
        ∧ old < old - amount.
Proof.
  intros Halgo Hentry Hold Hneg.
  destruct (settle_succeeds w payer payee amount old Halgo Hentry)
    as (w' & Hok & Hnew & _).
  { apply Qclt_le_weak. by eapply Qclt_le_trans. }
  exists w'. split_and!; try done.
  apply Qclt_minus_iff. replace (old - amount + - old) with (- amount) by ring.
  apply Qclt_minus_iff in Hneg. by replace (0 + - amount) with (- amount) in Hneg by ring.
Qed.

Lemma settle_expense_negative_amount_witness :
  ∃ w', settle_expense "Bob" "Alice" (- #50) after_equal_expense = Return tt w'
        ∧ sheet_entry w' "Bob" "Alice" = Some (#100 - - #50)
        ∧ #100 < #100 - - #50.
Proof.
  apply (settle_expense_negative_amount after_equal_expense "Bob" "Alice"
           (- #50) #100).
  - vm_compute. reflexivity.
  - exact after_equal_expense_entry.
  - vm_compute. discriminate.
  - vm_compute. reflexivity.
Defined.

(** X11.  Only the direct pairwise policy settles: a successful
    [settle_expense] implies the group was created with
    ["brute_force"]; on a ["heap_based"] group every call raises
    [TypeError], and with any other policy key every call raises the
    "settlement algo doesn't exists" error.  The state is unchanged in
    both cases. *)
Theorem settle_expense_policy w payer payee amount :
  (∀ w', settle_expense payer payee amount w = Return tt w' →
         settlement_algo (group w) = SettlementAlgo.BRUTE_FORCE)
  ∧ (settlement_algo (group w) = SettlementAlgo.HEAP_BASED →
     settle_expense payer payee amount w
     = Raise (TypeError
                "HeapSettlement.settle() got multiple values for argument 'payer'")
         w)
  ∧ (settlement_algo (group w) ≠ SettlementAlgo.BRUTE_FORCE →
     settlement_algo (group w) ≠ SettlementAlgo.HEAP_BASED →
     settle_expense payer payee amount w
     = Raise (UnknownSettlementPolicy (settlement_algo (group w))) w).
Proof.
  split_and!.
  - unfold settle_expense, bind, get. intros w' H.
    destruct (get_settlement_algo (settlement_algo (group w)))
      as [e|cls] eqn:Hcls; [discriminate|].
    apply get_settlement_algo_inv in Hcls as [[Ha _]|[_ ->]];
      [done|discriminate].
  - intros Ha. unfold settle_expense, bind, get. by rewrite Ha.
  - intros Hb Hh. unfold settle_expense, bind, get, get_settlement_algo,
      settlement_registry.
    by rewrite !lookup_insert_ne, lookup_empty by done.
Qed.

Lemma settle_expense_policy_witness :
  settlement_algo (group after_equal_expense) = SettlementAlgo.BRUTE_FORCE
  ∧ settle_expense "Bob" "Alice" #100
      (fresh_world "Goa Trip" ["Alice"; "Bob"] SettlementAlgo.HEAP_BASED)
    = Raise (TypeError
               "HeapSettlement.settle() got multiple values for argument 'payer'")
        (fresh_world "Goa Trip" ["Alice"; "Bob"] SettlementAlgo.HEAP_BASED)
  ∧ settle_expense "Bob" "Alice" #100
      (fresh_world "Goa Trip" ["Alice"; "Bob"] "greedy")
    = Raise (UnknownSettlementPolicy "greedy")
        (fresh_world "Goa Trip" ["Alice"; "Bob"] "greedy").
Proof.
  split_and!.
  - destruct (settle_expense_policy after_equal_expense "Bob" "Alice" #100)
      as (H & _ & _).
    exact (H after_settlement after_equal_expense_settle).
  - destruct (settle_expense_policy
                (fresh_world "Goa Trip" ["Alice"; "Bob"]
                   SettlementAlgo.HEAP_BASED) "Bob" "Alice" #100)
      as (_ & H & _).
    apply H. reflexivity.
  - destruct (settle_expense_policy
                (fresh_world "Goa Trip" ["Alice"; "Bob"] "greedy")
                "Bob" "Alice" #100)
      as (_ & _ & H).
    apply H; vm_compute; discriminate.
Defined.

(** ** A passbook stays connected to the ledger *)

Lemma record_share_sheet_grows p i share w :
  balance_sheet (group w) ⊆ balance_sheet (group (record_share p i share w)).
Proof.
  unfold record_share. case_bool_decide; [|done].
  unfold sheet_row.
  destruct (balance_sheet (group w) !! i) as [l|] eqn:Hl; [done|].
  simpl. by apply insert_subseteq.
Qed.

Lemma add_expense_sheet_grows w w' paid_by total split_type custom_splits
    descr :
  add_expense paid_by total split_type custom_splits descr w = Return tt w' →
  balance_sheet (group w) ⊆ balance_sheet (group w').
Proof.
  intros H.
  apply add_expense_Return_shares in H as (strategy & s & _ & _ & ->).
  apply (map_fold_weak_ind
           (λ w' _, balance_sheet (group w) ⊆ balance_sheet (group w'))).
  - simpl. by destruct (apply_split_rows_group paid_by s w) as [_ ->].
  - intros i share m w1 _ IH. etrans; [exact IH|].
    apply record_share_sheet_grows.
Qed.

(** X12.  A passbook taken earlier keeps showing the ledger: whatever
    expenses are added and settlements made afterwards, every debtor
    of the old passbook is still bound to the same row object in the
    balance sheet, so reading [pb[debtor][creditor]] gives the current
    entry of the balance sheet. *)
Theorem passbook_stays_live w w' pb debtor :
  get_passbook w = Return pb w →
  ((∃ paid_by total split_type custom_splits descr,
      add_expense paid_by total split_type custom_splits descr w
      = Return tt w')
   ∨ ∃ payer payee amount,
       settle_expense payer payee amount w = Return tt w') →
  is_Some (pb !! debtor) →
  pb !! debtor = balance_sheet (group w') !! debtor
  ∧ ∀ creditor,
      contents w' pb !! debtor ≫= (.!! creditor)
      = sheet_entry w' debtor creditor.
Proof.
  unfold get_passbook, bind, get, ret. intros [= <-] Hstep [l Hl].
  assert (Hsub : balance_sheet (group w) ⊆ balance_sheet (group w')).
  { destruct Hstep as [(? & ? & ? & ? & ? & H)|(? & ? & ? & H)].
    - by eapply add_expense_sheet_grows.
    - apply settle_expense_Return in H as (? & ? & _ & _ & _ & ->). done. }
  pose proof (lookup_weaken _ _ _ _ Hl Hsub) as Hl'.
  split; [by rewrite Hl, Hl'|].
  intros creditor. unfold contents, sheet_entry.
  rewrite lookup_fmap, Hl, Hl'. done.
Qed.

Lemma passbook_stays_live_witness :
  balance_sheet (group after_equal_expense) !! "Bob"
  = balance_sheet (group after_settlement) !! "Bob"
  ∧ ∀ creditor,
      contents after_settlement (balance_sheet (group after_equal_expense))
        !! "Bob" ≫= (.!! creditor)
      = sheet_entry after_settlement "Bob" creditor.
Proof.
  apply (passbook_stays_live after_equal_expense after_settlement
           (balance_sheet (group after_equal_expense)) "Bob").
  - reflexivity.
  - right. exists "Bob", "Alice", #100. exact after_equal_expense_settle.
  - vm_compute. eexists. reflexivity.
Defined.

(** ** More on the split strategies *)

(** X13.  The Equal strategy: on an empty list of users it raises
    [ZeroDivisionError]; otherwise it returns a map whose keys are
    exactly the users of the list, each with the amount divided by the
    length of the list (repetitions counted), and it looks at neither
    the payer nor [custom_splits]. *)
Theorem equal_split_contract paid_by total users custom_splits :
  (users = [] →
   split EqualSplit paid_by total users custom_splits = inl ZeroDivisionError)
  ∧ (users ≠ [] →
     ∃ shares,
       split EqualSplit paid_by total users custom_splits = inr shares
       ∧ (∀ user, shares !! user
                  = if decide (user ∈ users)
                    then Some (total / #(Z.of_nat (length users)))
                    else None)
       ∧ ∀ other_payer other_splits,
           split EqualSplit other_payer total users other_splits = inr shares).
Proof.
  split.
  - by intros ->.
  - intros Hne. destruct users as [|u us]; [done|].
    eexists. split; [reflexivity|]. split; [|done].
    intros user. unfold dict_of_users.
    rewrite lookup_foldl_insert. by rewrite lookup_empty.
Qed.

Lemma equal_split_contract_witness :
  ∃ shares,
    split EqualSplit "Alice" #300 ["Alice"; "Bob"; "Charlie"] None = inr shares
    ∧ (∀ user, shares !! user
               = if decide (user ∈ ["Alice"; "Bob"; "Charlie"])
                 then Some (#300 / #(Z.of_nat 3))
                 else None)
    ∧ ∀ other_payer other_splits,
        split EqualSplit other_payer #300 ["Alice"; "Bob"; "Charlie"]
          other_splits = inr shares.
Proof.
  destruct (equal_split_contract "Alice" #300 ["Alice"; "Bob"; "Charlie"] None)
    as [_ H].
  apply H. discriminate.
Defined.

(** X14.  The Exact strategy: it fails with [MissingCustomShares] when
    [custom_splits] is absent or empty, with [SplitSumMismatch] when it
    is non-empty and its values do not sum to the amount, and otherwise
    returns [custom_splits] itself; the payer and the list of users
    play no role, so shares may name users outside the group. *)
Theorem exact_split_contract paid_by total users custom_splits :
  (custom_splits = None ∨ custom_splits = Some ∅ →
   split ExactSplit paid_by total users custom_splits
   = inl (MissingCustomShares "ExactSplit"))
  ∧ (∀ d, custom_splits = Some d → d ≠ ∅ → sum_values d ≠ total →
     split ExactSplit paid_by total users custom_splits = inl SplitSumMismatch)
  ∧ (∀ d, custom_splits = Some d → d ≠ ∅ → sum_values d = total →
     split ExactSplit paid_by total users custom_splits = inr d)
  ∧ ∀ other_payer other_users,
      split ExactSplit other_payer total other_users custom_splits
      = split ExactSplit paid_by total users custom_splits.
Proof.
  split_and!.
  - intros [-> | ->]; done.
  - intros d -> Hne Hsum. simpl.
    rewrite bool_decide_eq_false_2 by done.
    by rewrite bool_decide_eq_true_2.
  - intros d -> Hne Hsum. simpl.
    rewrite bool_decide_eq_false_2 by done.
    rewrite bool_decide_eq_false_2; [done | by intros []].
  - done.
Qed.

Lemma exact_split_contract_witness :
  split ExactSplit "Bob" #400 ["Alice"; "Bob"; "Charlie"]
    (Some example_exact_shares)
  = inr example_exact_shares.
Proof.
  destruct (exact_split_contract "Bob" #400 ["Alice"; "Bob"; "Charlie"]
              (Some example_exact_shares)) as (_ & _ & H & _).
  apply (H example_exact_shares).
  - reflexivity.
  - intros Hempty. apply (f_equal (λ d, this <$> d !! "Alice")) in Hempty.
    vm_compute in Hempty. discriminate Hempty.
  - apply Qc_decomp. vm_compute. reflexivity.
Defined.

(** ** Errors of [add_expense] *)

(** X15.  An unregistered split type: any key other than ["EQUAL"],
    ["EXACT"] and ["PERCENTAGE"] (the keys are case-sensitive) makes
    [add_expense] raise "Invalid split type: <key>" and leaves the
    state unchanged. *)
Theorem add_expense_unknown_split_type w paid_by total split_type
    custom_splits descr :
  split_type ≠ SplitType.EQUAL →
  split_type ≠ SplitType.EXACT →
  split_type ≠ SplitType.PERCENTAGE →
  add_expense paid_by total split_type custom_splits descr w
  = Raise (UnknownSplitType split_type) w.
Proof.
  intros H1 H2 H3. unfold add_expense, bind, lift, get_strategy, split_registry.
  by rewrite !lookup_insert_ne, lookup_empty by done.
Qed.

Lemma add_expense_unknown_split_type_witness :
  add_expense "Alice" #300 "equal" None "" goa_trip
  = Raise (UnknownSplitType "equal") goa_trip.
Proof.
  apply (add_expense_unknown_split_type goa_trip "Alice" #300 "equal" None "");
    vm_compute; discriminate.
Defined.

(** X16.  An equal expense: on a group without users [add_expense] with
    ["EQUAL"] raises [ZeroDivisionError] and changes nothing; on any
    other group it succeeds, whatever the payer (who need not be a
    member), the amount and [custom_splits]. *)
Theorem add_expense_equal_succeeds w paid_by total custom_splits descr :
  (users (group w) = [] →
   add_expense paid_by total SplitType.EQUAL custom_splits descr w
   = Raise ZeroDivisionError w)
  ∧ (users (group w) ≠ [] →
     ∃ w', add_expense paid_by total SplitType.EQUAL custom_splits descr w
           = Return tt w').
Proof.
  unfold add_expense, bind, lift, get, ret, raise, modify, apply_split,
    Expense_init.
  change (get_strategy SplitType.EQUAL) with (@inr exn _ EqualSplit).
  cbn [split EqualSplit].
  split.
  - by intros ->.
  - intros Hne. destruct (users (group w)) as [|u us]; [done|].
    by eexists.
Qed.

Lemma add_expense_equal_succeeds_witness :
  ∃ w', add_expense "Dave" #300 SplitType.EQUAL None "" goa_trip
        = Return tt w'.
Proof.
  destruct (add_expense_equal_succeeds goa_trip "Dave" #300 None "") as [_ H].
  apply H. vm_compute. discriminate.
Defined.

(** ** Expenses end to end *)

Lemma add_expense_with_shares w paid_by total split_type custom_splits descr
    strategy s :
  get_strategy split_type = inr strategy →
  split strategy paid_by total (users (group w)) custom_splits = inr s →
  sheet_wf w →
  ∃ w',
    add_expense paid_by total split_type custom_splits descr w = Return tt w'
    ∧ (∀ user other,
         balance_entry w' user other
         = entry_after_split paid_by s w user other)
    ∧ (∀ debtor creditor,
         sheet_entry w' debtor creditor
         = sheet_after_split paid_by s w debtor creditor).
Proof.
  intros Hs Hsplit Hwf.
  eexists. split.
  { unfold add_expense, bind, lift, get, ret, modify, apply_split,
      Expense_init.
    rewrite Hs. cbn [ret]. rewrite Hsplit. cbn [payer splits]. reflexivity. }
  set (w1 := append_expense _ _).
  destruct (apply_split_rows_group paid_by s w) as [Hr Hg].
  assert (Hwf1 : sheet_wf w1).
  { eapply sheet_wf_ext; [| |exact Hwf]; simpl; [done|by rewrite Hg]. }
  destruct (sheet_entry_record_split paid_by s w1 Hwf1) as [_ Hsheet].
  split.
  - intros user other. unfold balance_entry at 1, user_balance.
    rewrite record_split_balance. subst w1. simpl.
    apply (balance_entry_apply_split paid_by s w user other).
  - intros debtor creditor. rewrite Hsheet.
    unfold sheet_after_split, outstanding, sheet_entry, row_at.
    subst w1. simpl. by rewrite Hr, Hg.
Qed.

Lemma get_strategy_EQUAL : get_strategy SplitType.EQUAL = inr EqualSplit.
Proof. reflexivity. Qed.
Lemma get_strategy_EXACT : get_strategy SplitType.EXACT = inr ExactSplit.
Proof. reflexivity. Qed.
Lemma get_strategy_PERCENTAGE :
  get_strategy SplitType.PERCENTAGE = inr PercentageSplit.
Proof. reflexivity. Qed.

(** X19.  An equal expense, end to end: on a group with at least one user,
    [add_expense] with ["EQUAL"] succeeds and every user of the group
    other than the payer then owes the payer the amount divided by the
    number of listed users on top of the earlier debt; nothing else in
    the balance sheet changes.  The amount is not checked: a negative
    amount records negative debts. *)
Theorem add_expense_equal_effect w paid_by total custom_splits descr :
  reachable w →
  users (group w) ≠ [] →
  ∃ w',
    add_expense paid_by total SplitType.EQUAL custom_splits descr w
    = Return tt w'
    ∧ (∀ user,
         user ∈ users (group w) → user ≠ paid_by →
         sheet_entry w' user paid_by
         = Some (outstanding w user paid_by
                 + total / #(Z.of_nat (length (users (group w))))))
    ∧ (∀ debtor creditor,
         ¬ (creditor = paid_by ∧ debtor ≠ paid_by
            ∧ debtor ∈ users (group w)) →
         sheet_entry w' debtor creditor = sheet_entry w debtor creditor).
Proof.
  intros Hreach Hne. apply reachable_sheet_wf in Hreach.
  set (per_head := total / #(Z.of_nat (length (users (group w))))).
  assert (Hsplit : split EqualSplit paid_by total (users (group w))
                     custom_splits
                   = inr (dict_of_users (users (group w)) per_head)).
  { subst per_head. by destruct (users (group w)). }
  destruct (add_expense_with_shares w paid_by total SplitType.EQUAL
              custom_splits descr _ _ get_strategy_EQUAL Hsplit Hreach)
    as (w' & Hok & _ & Hsheet).
  exists w'. split; [done|].
  assert (Hlookup : ∀ user,
            dict_of_users (users (group w)) per_head !! user
            = if decide (user ∈ users (group w)) then Some per_head else None).
  { intros user. unfold dict_of_users.
    by rewrite lookup_foldl_insert, lookup_empty. }
  split.
  - intros user Hin Hpayer. rewrite Hsheet. unfold sheet_after_split.
    rewrite decide_True by done. by rewrite Hlookup, decide_True.
  - intros debtor creditor Hno. rewrite Hsheet. unfold sheet_after_split.
    case_decide as Hc; [|done]. rewrite Hlookup.
    case_decide as Hin; [|done]. destruct Hno. by destruct Hc.
Qed.

Lemma add_expense_equal_effect_witness :
  ∃ w',
    add_expense "Alice" #300 SplitType.EQUAL None "" goa_trip = Return tt w'
    ∧ (∀ user,
         user ∈ users (group goa_trip) → user ≠ "Alice" →
         sheet_entry w' user "Alice"
         = Some (outstanding goa_trip user "Alice"
                 + #300 / #(Z.of_nat (length (users (group goa_trip))))))
    ∧ (∀ debtor creditor,
         ¬ (creditor = "Alice" ∧ debtor ≠ "Alice"
            ∧ debtor ∈ users (group goa_trip)) →
         sheet_entry w' debtor creditor = sheet_entry goa_trip debtor creditor).
Proof.
  apply (add_expense_equal_effect goa_trip "Alice" #300 None "").
  - apply reachable_init.
  - vm_compute. discriminate.
Defined.

(** X20.  An exact expense, end to end: with a non-empty [custom_splits]
    whose values sum to the amount, [add_expense] with ["EXACT"]
    succeeds and every user named in [custom_splits] other than the
    payer, member of the group or not, then owes the payer the given
    share on top of the earlier debt; nothing else in the balance sheet
    changes. *)
Theorem add_expense_exact_effect w paid_by total d descr :
  reachable w →
  d ≠ ∅ →
  sum_values d = total →
  ∃ w',
    add_expense paid_by total SplitType.EXACT (Some d) descr w = Return tt w'
    ∧ (∀ user share,
         d !! user = Some share → user ≠ paid_by →
         sheet_entry w' user paid_by
         = Some (outstanding w user paid_by + share))
    ∧ (∀ debtor creditor,
         ¬ (creditor = paid_by ∧ debtor ≠ paid_by ∧ is_Some (d !! debtor)) →
         sheet_entry w' debtor creditor = sheet_entry w debtor creditor).
Proof.
  intros Hreach Hne Hsum. apply reachable_sheet_wf in Hreach.
  assert (Hsplit : split ExactSplit paid_by total (users (group w)) (Some d)
                   = inr d).
  { simpl. rewrite bool_decide_eq_false_2 by done.
    rewrite bool_decide_eq_false_2; [done | by intros []]. }
  destruct (add_expense_with_shares w paid_by total SplitType.EXACT
              (Some d) descr _ _ get_strategy_EXACT Hsplit Hreach)
    as (w' & Hok & _ & Hsheet).
  exists w'. split; [done|]. split.
  - intros user share Hshare Hpayer. rewrite Hsheet. unfold sheet_after_split.
    rewrite decide_True by done. by rewrite Hshare.
  - intros debtor creditor Hno. rewrite Hsheet. unfold sheet_after_split.
    case_decide as Hc; [|done].
    destruct (d !! debtor) as [share|] eqn:Hshare; [|done].
    destruct Hno. destruct Hc. split_and!; try done; by eexists.
Qed.

Lemma add_expense_exact_effect_witness :
  ∃ w',
    add_expense "Bob" #400 SplitType.EXACT (Some example_exact_shares) ""
      after_equal_expense = Return tt w'
    ∧ (∀ user share,
         example_exact_shares !! user = Some share → user ≠ "Bob" →
         sheet_entry w' user "Bob"
         = Some (outstanding after_equal_expense user "Bob" + share))
    ∧ (∀ debtor creditor,
         ¬ (creditor = "Bob" ∧ debtor ≠ "Bob"
            ∧ is_Some (example_exact_shares !! debtor)) →
         sheet_entry w' debtor creditor
         = sheet_entry after_equal_expense debtor creditor).
Proof.
  apply (add_expense_exact_effect after_equal_expense "Bob" #400
           example_exact_shares "").
  - exact reachable_after_equal_expense.
  - intros Hempty. apply (f_equal (λ d, this <$> d !! "Alice")) in Hempty.
    vm_compute in Hempty. discriminate Hempty.
  - apply Qc_decomp. vm_compute. reflexivity.
Defined.

(** X21.  A percentage expense, end to end: with a non-empty [custom_splits]
    whose percentages sum to 100, [add_expense] with ["PERCENTAGE"]
    succeeds and every user named in [custom_splits] other than the
    payer then owes the payer [percent / 100 * amount] on top of the
    earlier debt; nothing else in the balance sheet changes. *)
Theorem add_expense_percentage_effect w paid_by total d descr :
  reachable w →
  d ≠ ∅ →
  sum_values d = #100 →
  ∃ w',
    add_expense paid_by total SplitType.PERCENTAGE (Some d) descr w
    = Return tt w'
    ∧ (∀ user percent,
         d !! user = Some percent → user ≠ paid_by →
         sheet_entry w' user paid_by
         = Some (outstanding w user paid_by + percent / #100 * total))
    ∧ (∀ debtor creditor,
         ¬ (creditor = paid_by ∧ debtor ≠ paid_by ∧ is_Some (d !! debtor)) →
         sheet_entry w' debtor creditor = sheet_entry w debtor creditor).
Proof.
  intros Hreach Hne Hsum. apply reachable_sheet_wf in Hreach.
  assert (Hsplit : split PercentageSplit paid_by total (users (group w))
                     (Some d)
                   = inr ((λ percent, percent / #100 * total) <$> d)).
  { simpl. rewrite bool_decide_eq_false_2 by done.
    rewrite bool_decide_eq_false_2; [done | by intros []]. }
  destruct (add_expense_with_shares w paid_by total SplitType.PERCENTAGE
              (Some d) descr _ _ get_strategy_PERCENTAGE Hsplit Hreach)
    as (w' & Hok & _ & Hsheet).
  exists w'. split; [done|]. split.
  - intros user percent Hshare Hpayer. rewrite Hsheet.
    unfold sheet_after_split.
    rewrite decide_True by done. by rewrite lookup_fmap, Hshare.
  - intros debtor creditor Hno. rewrite Hsheet. unfold sheet_after_split.
    case_decide as Hc; [|done]. rewrite lookup_fmap.
    destruct (d !! debtor) as [percent|] eqn:Hshare; [|done].
    destruct Hno. destruct Hc. split_and!; try done; by eexists.
Qed.

Lemma add_expense_percentage_effect_witness :
  ∃ w',
    add_expense "Charlie" #500 SplitType.PERCENTAGE (Some example_percentages)
      "" after_equal_expense = Return tt w'
    ∧ (∀ user percent,
         example_percentages !! user = Some percent → user ≠ "Charlie" →
         sheet_entry w' user "Charlie"
         = Some (outstanding after_equal_expense user "Charlie"
                 + percent / #100 * #500))
    ∧ (∀ debtor creditor,
         ¬ (creditor = "Charlie" ∧ debtor ≠ "Charlie"
            ∧ is_Some (example_percentages !! debtor)) →
         sheet_entry w' debtor creditor
         = sheet_entry after_equal_expense debtor creditor).
Proof.
  apply (add_expense_percentage_effect after_equal_expense "Charlie" #500
           example_percentages "").
  - exact reachable_after_equal_expense.
  - intros Hempty. apply (f_equal (λ d, this <$> d !! "Alice")) in Hempty.
    vm_compute in Hempty. discriminate Hempty.
  - apply Qc_decomp. vm_compute. reflexivity.
Defined.

(** ** Invariants of the balance sheet *)

Lemma settle_expense_sheet_entries w w' payer payee amount :
  sheet_wf w →
  settle_expense payer payee amount w = Return tt w' →
  ∃ old,
    sheet_entry w payer payee = Some old
    ∧ amount ≤ old
    ∧ expenses (group w') = expenses (group w)
    ∧ ∀ debtor creditor,
        sheet_entry w' debtor creditor
        = if decide (debtor = payer ∧ creditor = payee)
          then Some (old - amount)
          else sheet_entry w debtor creditor.
Proof.
  intros [_ Hinj] H.
  apply settle_expense_Return in H as (l & old & Hl & Hold & Hle & ->).
  exists old. split_and!; try done.
  { unfold sheet_entry. by rewrite Hl. }
  intros debtor creditor. unfold sheet_entry. cbn -[row_at isub].
  destruct (balance_sheet (group w) !! debtor) as [l'|] eqn:Hl';
    cbn -[row_at isub].
  - rewrite !row_at_set_user_balance, row_at_set_row.
    case_decide as Heq.
    + subst l'. assert (debtor = payer) as -> by (by eapply Hinj).
      case_decide as Hc.
      * destruct Hc as [_ ->]. rewrite lookup_isub_eq.
        unfold getitem. by rewrite Hold.
      * rewrite lookup_isub_ne; [done|]. intros ->. tauto.
    + rewrite decide_False; [done|]. intros [-> _]. congruence.
  - rewrite decide_False; [done|]. intros [-> _]. congruence.
Qed.

(** X22.  Debts stay non-negative: in every state reachable from a new
    group, if no logged expense has a negative share, then no entry of
    the balance sheet is negative (settlements cannot overdraw an
    entry). *)
Theorem balance_sheet_nonneg w debtor creditor entry :
  reachable w →
  (∀ e user share,
     e ∈ expenses (group w) → splits e !! user = Some share → 0 ≤ share) →
  sheet_entry w debtor creditor = Some entry →
  0 ≤ entry.
Proof.
  intros Hreach. revert debtor creditor entry.
  induction Hreach as [| w w' paid_by ? ? ? ? Hreach IH H
                       | w w' payer payee amount Hreach IH H];
    intros debtor creditor entry Hshares Hentry.
  - unfold sheet_entry in Hentry. simpl in Hentry.
    by rewrite lookup_empty in Hentry.
  - pose proof (reachable_sheet_wf _ Hreach) as Hwf.
    destruct (add_expense_effect _ _ _ _ _ _ _ Hwf H)
      as (e & Hex & _ & _ & _ & Hsheet).
    rewrite Hex in Hshares.
    assert (IH' : ∀ d c x, sheet_entry w d c = Some x → 0 ≤ x).
    { intros d c x. apply IH. intros e' user share Hin.
      apply Hshares. apply elem_of_app. by left. }
    rewrite Hsheet in Hentry. unfold sheet_after_split in Hentry.
    case_decide as Hc; [|by eapply IH'].
    destruct (splits e !! debtor) as [share|] eqn:Hshare; [|by eapply IH'].
    injection Hentry as <-.
    assert (0 ≤ share) as Hs.
    { eapply (Hshares e); [|done]. apply elem_of_app. right. by left. }
    assert (0 ≤ outstanding w debtor paid_by) as Ho.
    { unfold outstanding.
      destruct (sheet_entry w debtor paid_by) as [x|] eqn:Hx; simpl;
        [by eapply IH'|done]. }
    replace 0 with (0 + 0) by ring. by apply Qcplus_le_compat.
  - pose proof (reachable_sheet_wf _ Hreach) as Hwf.
    destruct (settle_expense_sheet_entries _ _ _ _ _ Hwf H)
      as (old & Hold & Hle & Hex & Hsheet).
    rewrite Hex in Hshares. rewrite Hsheet in Hentry.
    case_decide as Hc; [|by eapply IH].
    injection Hentry as <-.
    apply Qcle_minus_iff in Hle.
    by replace (old - amount) with (old + - amount) by ring.
Qed.

Lemma balance_sheet_nonneg_witness : 0 ≤ #100.
Proof.
  apply (balance_sheet_nonneg after_equal_expense "Bob" "Alice" #100).
  - exact reachable_after_equal_expense.
  - intros e user share Hin Hshare.
    assert (e = {| payer := "Alice"; amount := #300;
                   splits := dict_of_users ["Alice"; "Bob"; "Charlie"]
                               (#300 / #(Z.of_nat 3));
                   description := "" |}) as ->.
    { apply list_elem_of_singleton. exact Hin. }
    cbn [splits] in Hshare. unfold dict_of_users in Hshare.
    rewrite lookup_foldl_insert in Hshare.
    case_decide; [|by rewrite lookup_empty in Hshare].
    injection Hshare as <-. vm_compute. discriminate.
  - exact after_equal_expense_entry.
Defined.

(** X23.  Nobody owes themselves: in every state reachable from a new group
    the balance sheet has no entry [user][user], so a settlement of a
    user with themselves never succeeds. *)
Theorem no_self_debt w user :
  reachable w →
  sheet_entry w user user = None
  ∧ ∀ amount w', settle_expense user user amount w ≠ Return tt w'.
Proof.
  intros Hreach.
  assert (Hnone : sheet_entry w user user = None).
  { induction Hreach as [| w w' paid_by ? ? ? ? Hreach IH H
                         | w w' payer payee amount Hreach IH H].
    - unfold sheet_entry. simpl. by rewrite lookup_empty.
    - pose proof (reachable_sheet_wf _ Hreach) as Hwf.
      destruct (add_expense_effect _ _ _ _ _ _ _ Hwf H)
        as (e & _ & _ & _ & _ & Hsheet).
      rewrite Hsheet. unfold sheet_after_split.
      rewrite decide_False; [done|]. tauto.
    - pose proof (reachable_sheet_wf _ Hreach) as Hwf.
      destruct (settle_expense_sheet_entries _ _ _ _ _ Hwf H)
        as (old & Hold & _ & _ & Hsheet).
      rewrite Hsheet. case_decide as Hc; [|done].
      destruct Hc as [-> ->]. congruence. }
  split; [done|]. intros amount w' H.
  apply settle_expense_Return in H as (l & old & Hl & Hold & _ & _).
  unfold sheet_entry in Hnone. rewrite Hl in Hnone. simpl in Hnone.
  congruence.
Qed.

Lemma no_self_debt_witness :
  sheet_entry after_equal_expense "Alice" "Alice" = None
  ∧ ∀ amount w',
      settle_expense "Alice" "Alice" amount after_equal_expense
      ≠ Return tt w'.
Proof.
  apply (no_self_debt after_equal_expense "Alice").
  exact reachable_after_equal_expense.
Defined.
